(** * pibooth diagnostic: a shallow embedding of [pibooth/scripts/diagnostic.py]

    The script talks to a DSLR through the gphoto2 binding, prints what it
    finds and keeps a log file.  The embedding keeps the script's own
    functions ([write_log], [gp_logging], [print_config], [set_config_value],
    [get_config_value], [camera_connected], [main]) and treats everything the
    script only calls (the gphoto2 binding, PIL, the plugin manager) as an
    environment the definitions are parametrised over. *)

From Stdlib Require Import ZArith String Ascii List Bool Lia.
From Stdlib.Strings Require Import Byte.
From stdpp Require Import base option strings list sorting gmap pretty.

Open Scope string_scope.
Open Scope Z_scope.

(** ** Python text helpers *)

Module Py.

(** [text[:n]] on a [str]: one [ascii] stands for one character. *)
Definition slice_to (n : nat) (text : string) : string := substring 0 n text.

(** [s * n] *)
Fixpoint repeat_str (s : string) (n : nat) : string :=
  match n with
  | O => ""
  | S n' => s +:+ repeat_str s n'
  end.

(** [sep.join(parts)] *)
Fixpoint join (sep : string) (parts : list string) : string :=
  match parts with
  | [] => ""
  | [p] => p
  | p :: rest => p +:+ sep +:+ join sep rest
  end.

(** [str(b)] for a [bool] *)
Definition str_bool (b : bool) : string := if b then "True" else "False".

(** [f"{index:02d}"] for a non-negative index *)
Definition fmt_02d (index : nat) : string :=
  if (index <? 10)%nat then "0" +:+ pretty index else pretty index.

Arguments join : simpl never.

Definition nl : string := String "010" "".

Definition dquote : string := String "034" "".

(** [sorted(l, key=key)] with [str] keys: Python's sort is stable, and a
    stable sort has one possible result, which insertion from the right
    computes. *)
Fixpoint insert_sorted {A} (key : A -> string) (x : A) (l : list A) : list A :=
  match l with
  | [] => [x]
  | y :: l' =>
      if String.leb (key x) (key y) then x :: l else y :: insert_sorted key x l'
  end.

Definition sorted {A} (key : A -> string) (l : list A) : list A :=
  foldr (insert_sorted key) [] l.

(** [enumerate(l)] *)
Definition enumerate {A} (l : list A) : list (nat * A) :=
  combine (seq 0 (length l)) l.

End Py.

(** ** The process-wide logger *)

Definition APPNAME : string := "diagnostic".

Module Logger.

(** What [write_log] touches: the console stream behind [print] and the
    module-level [LOGFILE], [None] until the file is opened and from then
    on the text written to it. *)
Record t := Make {
  stdout : string;
  LOGFILE : option string
}.

Definition initial : t := Make "" None.

Definition print (text : string) (l : t) : t :=
  Make (stdout l +:+ text +:+ Py.nl) (LOGFILE l).

(** [if not LOGFILE: LOGFILE = open(APPNAME + '.log', 'w')] *)
Definition open_once (l : t) : t :=
  match LOGFILE l with
  | Some _ => l
  | None => Make (stdout l) (Some "")
  end.

(** [LOGFILE.write(text)] *)
Definition file_write (text : string) (l : t) : t :=
  Make (stdout l) (option_map (fun written => written +:+ text) (LOGFILE l)).

Definition section_rule : string := Py.nl +:+ Py.repeat_str "=" 80.

Definition truncation_marker : string := "[... -> see log file for full message]".

Definition write_log (text : string) (new_section : bool) (l : t) : t :=
  let l := open_once l in
  let l := if new_section
           then file_write (section_rule +:+ Py.nl) (print section_rule l)
           else l in
  let l := print (Py.slice_to 200 text) l in
  let l := if (200 <? String.length text)%nat
           then print truncation_marker l
           else l in
  file_write (text +:+ Py.nl) l.

(** The text of the log file so far (empty while it is not yet open). *)
Definition file_text (l : t) : string := default "" (LOGFILE l).

End Logger.

(** ** The gphoto2 binding, as the script sees it *)

Inductive widget_type :=
| GP_WIDGET_WINDOW | GP_WIDGET_SECTION | GP_WIDGET_TEXT | GP_WIDGET_RANGE
| GP_WIDGET_TOGGLE | GP_WIDGET_RADIO | GP_WIDGET_MENU | GP_WIDGET_BUTTON
| GP_WIDGET_DATE.

Global Instance widget_type_eq_dec : EqDecision widget_type.
Proof. solve_decision. Defined.

(** A value read from or written to a widget: a [str], an [int] or a
    [float]; a float is only ever printed, so it is kept as its printed
    form. *)
Inductive gp_value :=
| VStr (s : string)
| VInt (z : Z)
| VFloat (printed : string).

Global Instance gp_value_eq_dec : EqDecision gp_value.
Proof. solve_decision. Defined.

(** The configuration tree fetched by [camera.get_config()].  The binding's
    widget class is not part of the repository; the fields are the getters
    the script calls on it, read from the fetched snapshot. *)
#[warnings="-register-all"]
Inductive CameraWidget := Widget {
  get_name : string;
  get_label : string;
  get_type : widget_type;
  get_readonly : bool;
  get_value : gp_value;
  get_choices : list string;
  get_range : string * string * string;
  get_children : list CameraWidget
}.

(** Induction over the tree, children included. *)
Section WidgetInduction.

Variable P : CameraWidget -> Prop.
Hypothesis step : forall w, Forall P (get_children w) -> P w.

Fixpoint CameraWidget_tree_ind (w : CameraWidget) : P w :=
  step w
    (match w return Forall P (get_children w) with
     | Widget _ _ _ _ _ _ _ children =>
         (fix all (l : list CameraWidget) : Forall P l :=
            match l with
            | [] => Forall_nil_2 P
            | c :: l' => Forall_cons_2 P c l' (CameraWidget_tree_ind c) (all l')
            end) children
     end).

End WidgetInduction.

Record CameraFilePath := FilePath { folder : string; name : string }.

Definition CameraFile := N.

(** [(name, addr)] pairs of [gp.CameraList]. *)
Definition CameraList := list (string * string).

(** Bits of [abilities.operations] (values of libgphoto2's
    [CameraOperation] enumeration). *)
Definition GP_OPERATION_CAPTURE_IMAGE : Z := 1.
Definition GP_OPERATION_CAPTURE_PREVIEW : Z := 8.

(** Every call the script makes into the binding that reaches the driver,
    indexed by what it returns. *)
Inductive gp_op : Type -> Type :=
| gp_log_add_func : gp_op unit
| gp_camera_autodetect : gp_op CameraList
| PortInfoList_new : gp_op unit
| PortInfoList_load : gp_op unit
| CameraAbilitiesList_new : gp_op unit
| CameraAbilitiesList_load : gp_op unit
| CameraAbilitiesList_detect : gp_op CameraList
| Camera_new : gp_op unit
| Camera_init : gp_op unit
| Camera_get_abilities : gp_op Z
| Camera_get_config : gp_op CameraWidget
| Widget_get_child_by_name (w : CameraWidget) (child : string) : gp_op CameraWidget
| Widget_set_value (w : CameraWidget) (value : gp_value) : gp_op unit
| Camera_set_config (config : CameraWidget) : gp_op unit
| Camera_capture_preview : gp_op CameraFile
| Camera_capture : gp_op CameraFilePath
| Camera_file_get (folder name : string) : gp_op CameraFile
| File_get_data_and_size (f : CameraFile) : gp_op (list Byte.byte)
| Camera_exit : gp_op unit.

Definition gp_call : Type := { A : Type & gp_op A }.

Definition called {A} (op : gp_op A) : gp_call := existT A op.

(** Exceptions the script can see: the binding's [gp.GPhoto2Error] and any
    other [Exception]; each carries what [str(ex)] prints. *)
Inductive exn :=
| GPhoto2Error (code : Z) (text : string)
| PyException (text : string).

Definition str_exn (ex : exn) : string :=
  match ex with
  | GPhoto2Error _ text => text
  | PyException text => text
  end.

Definition is_GPhoto2Error (ex : exn) : bool :=
  match ex with GPhoto2Error _ _ => true | PyException _ => false end.

Inductive gp_result (A : Type) :=
| GpOk (a : A)
| GpError (code : Z) (text : string).
Arguments GpOk {A} a.
Arguments GpError {A} code text.

(** What one driver call does: the messages it hands to a registered log
    function (domain, text), its result, and the device afterwards. *)
Record reply (World A : Type) := Reply {
  r_messages : list (string * string);
  r_result : gp_result A;
  r_world : World
}.
Arguments Reply {World A} _ _ _.
Arguments r_messages {World A} _.
Arguments r_result {World A} _.
Arguments r_world {World A} _.

(** Everything else the script reads from its surroundings. *)
Record environment := Environment {
  pibooth_version : string;
  external_plugins : list string;      (* friendly names, in listing order *)
  gp_installed : bool;                 (* [gp] is not [None] *)
  gp_library_version : option (list string); (* [None]: the call raises *)
  has_autodetect : bool;               (* [hasattr(gp, 'gp_camera_autodetect')] *)
  repr_str : string -> string;         (* Python's [repr] on a [str] *)
  Image : Type;
  Image_open : list Byte.byte -> string + Image;   (* [inl]: raises, with its text *)
  Image_save : Image -> string + list Byte.byte    (* [inl]: raises, file untouched *)
}.

(** ** Running the script: state, results and the calling convention *)

(** How a piece of the script ends: it falls through with a value, an
    exception is on its way up, or [sys.exit] was called. *)
Inductive outcome (A : Type) :=
| Return (a : A)
| Raise (ex : exn)
| SystemExit (status : Z).
Arguments Return {A} a.
Arguments Raise {A} ex.
Arguments SystemExit {A} status.

Section Script.

Variable World : Type.
Variable driver : forall A, gp_op A -> World -> reply World A.
Variable env : environment.

Record state := State {
  world : World;                       (* the driver and the device behind it *)
  gp_log_callback : bool;              (* the hook of [gp_log_add_func] is alive *)
  calls : list (gp_call * bool);       (* driver calls so far, oldest first,
                                          each with whether it succeeded *)
  log : Logger.t;
  files : gmap string (list Byte.byte) (* the working directory *)
}.

Definition M (A : Type) : Type := state -> outcome A * state.

Definition ret {A} (a : A) : M A := fun s => (Return a, s).

Definition bind {A B} (m : M A) (k : A -> M B) : M B :=
  fun s =>
    match m s with
    | (Return a, s') => k a s'
    | (Raise ex, s') => (Raise ex, s')
    | (SystemExit status, s') => (SystemExit status, s')
    end.

Definition raise {A} (ex : exn) : M A := fun s => (Raise ex, s).

Definition sys_exit {A} (status : Z) : M A := fun s => (SystemExit status, s).

(** [try: body  except <catches>: handler] *)
Definition try_except {A} (body : M A) (catches : exn -> bool)
    (handler : exn -> M A) : M A :=
  fun s =>
    match body s with
    | (Raise ex, s') => if catches ex then handler ex s' else (Raise ex, s')
    | r => r
    end.

Definition for_each {A} (body : A -> M unit) : list A -> M unit :=
  fix go (l : list A) : M unit :=
    match l with
    | [] => ret tt
    | x :: l' => bind (body x) (fun _ => go l')
    end.

Definition with_log (f : Logger.t -> Logger.t) (s : state) : state :=
  State (world s) (gp_log_callback s) (calls s) (f (log s)) (files s).

Definition write_log (text : string) (new_section : bool) : M unit :=
  fun s => (Return tt, with_log (Logger.write_log text new_section) s).

Definition gp_logging (domain string : string) : M unit :=
  write_log ("Gphoto2: " +:+ domain +:+ ": " +:+ string) false.

(** Messages of one driver call, passed to [gp_logging] in order. *)
Definition deliver (messages : list (string * string)) (s : state) : state :=
  foldl (fun s m => (gp_logging m.1 m.2 s).2) s messages.

Definition succeeded {A} (r : gp_result A) : bool :=
  match r with GpOk _ => true | GpError _ _ => false end.

(** The state after a call: the driver has moved on, the call is noted,
    and a registered log function has received the driver's messages. *)
Definition after_call {A} (op : gp_op A) (s : state) : state :=
  let r := driver A op (world s) in
  let s1 := State (r_world r) (gp_log_callback s)
                  (calls s ++ [(called op, succeeded (r_result r))])
                  (log s) (files s) in
  if gp_log_callback s then deliver (r_messages r) s1 else s1.

(** One call into the binding; an error code comes back as
    [gp.GPhoto2Error]. *)
Definition call {A} (op : gp_op A) : M A :=
  fun s =>
    match r_result (driver A op (world s)) with
    | GpOk a => (Return a, after_call op s)
    | GpError code text => (Raise (GPhoto2Error code text), after_call op s)
    end.

Definition set_gp_log_callback (alive : bool) : M unit :=
  fun s => (Return tt, State (world s) alive (calls s) (log s) (files s)).

(** [with open(path, 'wb') as fd: fd.write(data)] *)
Definition write_file (path : string) (data : list Byte.byte) : M unit :=
  fun s => (Return tt, State (world s) (gp_log_callback s) (calls s) (log s)
                             (<[path := data]> (files s))).

(** A call into PIL: its exception is an ordinary [Exception]. *)
Definition pil {A} (r : string + A) : M A :=
  match r with
  | inl text => raise (PyException text)
  | inr a => ret a
  end.

End Script.

Arguments State {World} _ _ _ _ _.
Arguments world {World} _.
Arguments gp_log_callback {World} _.
Arguments calls {World} _.
Arguments log {World} _.
Arguments files {World} _.
Arguments ret {World A} a _.
Arguments bind {World A B} m k _.
Arguments raise {World A} ex _.
Arguments sys_exit {World A} status _.
Arguments try_except {World A} body catches handler _.
Arguments for_each {World A} body l _.
Arguments with_log {World} f s.
Arguments write_log {World} text new_section _.
Arguments gp_logging {World} domain string _.
Arguments deliver {World} messages s.
Arguments succeeded {A} r.
Arguments after_call {World} driver {A} op s.
Arguments call {World} driver {A} op _.
Arguments set_gp_log_callback {World} alive _.
Arguments write_file {World} path data _.
Arguments pil {World A} r _.

Declare Scope script_scope.
Delimit Scope script_scope with script.
Notation "x <- m ;; k" := (bind m (fun x => k))
  (at level 100, m at next level, k at level 200, right associativity) : script_scope.
Notation "m ;; k" := (bind m (fun _ => k))
  (at level 100, k at level 200, right associativity) : script_scope.
Open Scope script_scope.

(** ** The script *)

Section Diagnostic.

Context {World : Type}.
Variable driver : forall A, gp_op A -> World -> reply World A.
Variable env : environment.

Local Abbreviation call := (call driver).

Definition gp_widget_types (t : widget_type) : string :=
  match t with
  | GP_WIDGET_WINDOW => "Window toplevel"
  | GP_WIDGET_SECTION => "Section (or Tab)"
  | GP_WIDGET_TEXT => "Text"
  | GP_WIDGET_RANGE => "Slider"
  | GP_WIDGET_TOGGLE => "Toggle button (or check box)"
  | GP_WIDGET_RADIO => "Radio button"
  | GP_WIDGET_MENU => "Menu widget (same as Radio)"
  | GP_WIDGET_BUTTON => "Button press"
  | GP_WIDGET_DATE => "Date entering"
  end.

(** [str(value)] *)
Definition str_value (value : gp_value) : string :=
  match value with
  | VStr s => s
  | VInt z => pretty z
  | VFloat printed => printed
  end.

(** [str(type(value))] *)
Definition str_type (value : gp_value) : string :=
  match value with
  | VStr _ => "<class 'str'>"
  | VInt _ => "<class 'int'>"
  | VFloat _ => "<class 'float'>"
  end.

(** [str(choices)] for a list of [str] *)
Definition str_list (choices : list string) : string :=
  "[" +:+ Py.join ", " (map (repr_str env) choices) +:+ "]".

Fixpoint print_config (config : CameraWidget) (parent : string) {struct config}
    : M World unit :=
  for_each (fun child =>
    let path := Py.join "/" [parent; get_name child] in
    if decide (get_type child = GP_WIDGET_SECTION) then
      print_config child path
    else
      write_log path false ;;
      write_log ("  Label       : " +:+ get_label child) false ;;
      write_log ("  Readonly    : " +:+ (if get_readonly child then "yes" else "no")) false ;;
      write_log ("  Data type   : " +:+ str_type (get_value child)) false ;;
      write_log ("  Widget type : " +:+ gp_widget_types (get_type child)) false ;;
      write_log ("  Current     : " +:+ str_value (get_value child)) false ;;
      if decide (get_type child = GP_WIDGET_RADIO) then
        write_log ("  Choices     : " +:+ str_list (get_choices child)) false
      else if decide (get_type child = GP_WIDGET_RANGE) then
        let '(min, max, step) := get_range child in
        write_log ("  Choices     : min=" +:+ min +:+ ", max=" +:+ max
                   +:+ ", step=" +:+ step) false
      else if decide (get_type child = GP_WIDGET_TOGGLE) then
        write_log "  Choices     : [0, 1]" false
      else if decide (get_type child = GP_WIDGET_MENU) then
        write_log ("  Choices     : " +:+ str_list (get_choices child)) false
      else
        write_log "  Choices     : n/a" false)
    (get_children config).

(** The body of [print_config]'s loop. *)
Definition print_child (parent : string) (child : CameraWidget) : M World unit :=
  let path := Py.join "/" [parent; get_name child] in
  if decide (get_type child = GP_WIDGET_SECTION) then
    print_config child path
  else
    write_log path false ;;
    write_log ("  Label       : " +:+ get_label child) false ;;
    write_log ("  Readonly    : " +:+ (if get_readonly child then "yes" else "no")) false ;;
    write_log ("  Data type   : " +:+ str_type (get_value child)) false ;;
    write_log ("  Widget type : " +:+ gp_widget_types (get_type child)) false ;;
    write_log ("  Current     : " +:+ str_value (get_value child)) false ;;
    if decide (get_type child = GP_WIDGET_RADIO) then
      write_log ("  Choices     : " +:+ str_list (get_choices child)) false
    else if decide (get_type child = GP_WIDGET_RANGE) then
      let '(min, max, step) := get_range child in
      write_log ("  Choices     : min=" +:+ min +:+ ", max=" +:+ max
                 +:+ ", step=" +:+ step) false
    else if decide (get_type child = GP_WIDGET_TOGGLE) then
      write_log "  Choices     : [0, 1]" false
    else if decide (get_type child = GP_WIDGET_MENU) then
      write_log ("  Choices     : " +:+ str_list (get_choices child)) false
    else
      write_log "  Choices     : n/a" false.

(** [value not in choices]: an [int] is equal to no [str]. *)
Definition value_in (value : gp_value) (choices : list string) : bool :=
  match value with
  | VStr s => bool_decide (s ∈ choices)
  | _ => false
  end.

(** Truth value of [choices], which is [None] or a list. *)
Definition truthy (choices : option (list string)) : bool :=
  match choices with
  | Some (_ :: _) => true
  | _ => false
  end.

(** In the two accessors [opt] is the source's parameter [option]. *)
Definition setting_line (section opt : string) (value : gp_value) : string :=
  "Setting option " +:+ section +:+ "/" +:+ opt +:+ "="
  +:+ Py.dquote +:+ str_value value +:+ Py.dquote.

Definition invalid_line (opt : string) (value : gp_value) (choices : list string)
    : string :=
  "   -> invalid value '" +:+ str_value value +:+ "' for option " +:+ opt
  +:+ " (possible choices: " +:+ str_list choices +:+ ")".

Definition unsupported_line (section opt : string) (value : gp_value) : string :=
  "   -> unsupported setting " +:+ section +:+ "/" +:+ opt +:+ "="
  +:+ str_value value +:+ " (nothing configured on DSLR)".

(** The statements of [set_config_value]'s [try] block. *)
Definition set_config_value_try (section opt : string) (value : gp_value)
    : M World unit :=
  write_log (setting_line section opt value) false ;;
  config <- call Camera_get_config ;;
  sec <- call (Widget_get_child_by_name config section) ;;
  child <- call (Widget_get_child_by_name sec opt) ;;
  let choices :=
    if decide (get_type child = GP_WIDGET_RADIO)
    then Some (get_choices child)
    else None in
  (if truthy choices && negb (value_in value (default [] choices)) then
     write_log (invalid_line opt value (default [] choices)) false
   else ret tt) ;;
  call (Widget_set_value child value) ;;
  call (Camera_set_config config).

Definition set_config_value (section opt : string) (value : gp_value) : M World unit :=
  try_except
    (set_config_value_try section opt value)
    is_GPhoto2Error
    (fun _ => write_log (unsupported_line section opt value) false).

Definition getting_line (section opt : string) (value : gp_value) : string :=
  "Getting option " +:+ section +:+ "/" +:+ opt +:+ "=" +:+ str_value value.

Definition unknown_line (section opt : string) : string :=
  "Unknown option " +:+ section +:+ "/" +:+ opt.

(** The statements of [get_config_value]'s [try] block. *)
Definition get_config_value_try (section opt : string) : M World (option gp_value) :=
  config <- call Camera_get_config ;;
  sec <- call (Widget_get_child_by_name config section) ;;
  child <- call (Widget_get_child_by_name sec opt) ;;
  let value := get_value child in
  write_log (getting_line section opt value) false ;;
  ret (Some value).

(** [None] is what Python returns when the function falls off its end. *)
Definition get_config_value (section opt : string) : M World (option gp_value) :=
  try_except
    (get_config_value_try section opt)
    is_GPhoto2Error
    (fun _ =>
       write_log (unknown_line section opt) false ;;
       ret None).

Definition camera_connected : M World CameraList :=
  if has_autodetect env then
    call gp_camera_autodetect
  else
    call PortInfoList_new ;;
    call PortInfoList_load ;;
    call CameraAbilitiesList_new ;;
    call CameraAbilitiesList_load ;;
    call CameraAbilitiesList_detect.

(** [main]'s [try] block up to the download (lines 179 to 200); the value
    is [camera_file]. *)
Definition main_try_capture : M World CameraFile :=
  config <- call Camera_get_config ;;
  print_config config "" ;;

  write_log "Testing commands used by pibooth" true ;;

  set_config_value "imgsettings" "iso" (VStr "100") ;;
  set_config_value "settings" "capturetarget" (VStr "Memory card") ;;

  viewfinder <- get_config_value "actions" "viewfinder" ;;
  (if viewfinder is Some _ then
     set_config_value "actions" "viewfinder" (VInt 1)
   else ret tt) ;;

  write_log "Take capture preview" false ;;
  call Camera_capture_preview ;;

  (if viewfinder is Some _ then
     set_config_value "actions" "viewfinder" (VInt 0)
   else ret tt) ;;

  write_log "Take a capture" false ;;
  gp_path <- call Camera_capture ;;

  write_log "Download file from DSLR" false ;;
  call (Camera_file_get (folder gp_path) (name gp_path)).

(** The rest of the [try] block (lines 202 to 207). *)
Definition main_try_save (camera_file : CameraFile) : M World unit :=
  write_log "Save capture locally from memory buffer" false ;;
  data <- call (File_get_data_and_size camera_file) ;;
  write_file (APPNAME +:+ ".raw") data ;;
  image <- pil (Image_open env data) ;;
  encoded <- pil (Image_save env image) ;;
  write_file (APPNAME +:+ ".jpg") encoded.

(** The statements of [main]'s [try] block. *)
Definition main_try : M World unit :=
  camera_file <- main_try_capture ;;
  main_try_save camera_file.

Definition abort_line (ex : exn) : string :=
  "ABORT   : exception occures: " +:+ str_exn ex.

Definition preview_line (preview_compat : bool) : string :=
  "* Preview compatible: " +:+ Py.str_bool preview_compat.

Definition capture_line (capture_compat : bool) : string :=
  "* Capture compatible: " +:+ Py.str_bool capture_compat.

(** [main] up to the point where the session is open and the abilities
    are known (lines 129 to 171); the value is [abilities.operations]. *)
Definition main_open : M World Z :=
  (* error = False *)
  write_log ("Pibooth version installed: " +:+ pibooth_version env) false ;;
  write_log ("Installed plugins: " +:+ Py.join ", " (external_plugins env)) false ;;

  (if negb (gp_installed env) then
     write_log "gPhoto2 not installed, cannot diagnose connected DSLR" false ;;
     sys_exit 1
   else
     (* try: ... except Exception: pass *)
     match gp_library_version env with
     | Some (version :: options) =>
         write_log ("GPhoto2 version installed: " +:+ version) false ;;
         for_each (fun opt => write_log ("  - " +:+ opt) false) options
     | _ => ret tt
     end) ;;

  call gp_log_add_func ;;
  set_gp_log_callback true ;;
  write_log "Listing all connected DSLR camera" false ;;
  cameras_list <- camera_connected ;;

  (if cameras_list is [] then
     write_log "No compatible DSLR camera detected" false ;;
     sys_exit 1
   else ret tt) ;;

  let cameras_list := Py.sorted fst cameras_list in
  for_each (fun '(index, (name, addr)) =>
              write_log (Py.fmt_02d index +:+ " : addr-> " +:+ addr
                         +:+ "  name-> " +:+ name) false)
           (Py.enumerate cameras_list) ;;

  write_log "Stating diagnostic of connected DSLR camera" true ;;
  call Camera_new ;;
  call Camera_init ;;

  call Camera_get_abilities.

Definition preview_compat (operations : Z) : bool :=
  GP_OPERATION_CAPTURE_PREVIEW =? Z.land operations GP_OPERATION_CAPTURE_PREVIEW.

Definition capture_compat (operations : Z) : bool :=
  GP_OPERATION_CAPTURE_IMAGE =? Z.land operations GP_OPERATION_CAPTURE_IMAGE.

Definition report_lines : list string :=
  [ "If you are investigating why pibooth does not work with your DSLR camera,";
    "please paste the content of generated file '" +:+ APPNAME +:+ ".log'";
    "on https://github.com/pibooth/pibooth/issues" ].

(** The end of [main] (lines 213 to 221); [error] is the local variable. *)
Definition main_close (error : bool) : M World unit :=
  (if negb error then
     write_log "SUCCESS : diagnostic completed" true
   else ret tt) ;;

  set_gp_log_callback false ;;   (* del gp_log_callback *)
  call Camera_exit ;;

  write_log "If you are investigating why pibooth does not work with your DSLR camera," false ;;
  write_log ("please paste the content of generated file '" +:+ APPNAME +:+ ".log'") false ;;
  write_log "on https://github.com/pibooth/pibooth/issues" false.

(** [main] from line 172 on, with the session open. *)
Definition main_session (operations : Z) : M World unit :=
  write_log (preview_line (preview_compat operations)) false ;;
  write_log (capture_line (capture_compat operations)) false ;;

  error <- (if capture_compat operations then
              try_except
                (main_try ;; ret false)
                (fun _ => true)
                (fun ex => write_log (abort_line ex) true ;; ret true)
            else ret false) ;;
  main_close error.

Definition main : M World unit :=
  operations <- main_open ;;
  main_session operations.

End Diagnostic.

(** ** The configuration tree, as the specification speaks of it *)

Definition is_section (w : CameraWidget) : bool :=
  bool_decide (get_type w = GP_WIDGET_SECTION).

(** Every node strictly below [w], depth first and parents before children,
    each with the nodes passed on the way down to it (outermost first, [w]
    itself left out). *)
Fixpoint descendants (w : CameraWidget) : list (list CameraWidget * CameraWidget) :=
  flat_map (fun child =>
              ([], child) :: map (fun d => (child :: d.1, d.2)) (descendants child))
           (get_children w).

(** The nodes of a dump: below [config], not sections, with nothing but
    sections on the way down; each at the join of the prefix, the names of
    those sections and its own name. *)
Definition reported (config : CameraWidget) (parent : string)
    : list (string * CameraWidget) :=
  map (fun d => (Py.join "/" (parent :: map get_name d.1 ++ [get_name d.2]), d.2))
      (List.filter (fun d => forallb is_section d.1 && negb (is_section d.2))
                   (descendants config)).

(** The nodes reported below a list of siblings. *)
Definition reported_among (parent : string) (siblings : list CameraWidget)
    : list (string * CameraWidget) :=
  map (fun d => (Py.join "/" (parent :: map get_name d.1 ++ [get_name d.2]), d.2))
      (List.filter (fun d => forallb is_section d.1 && negb (is_section d.2))
         (flat_map (fun child =>
                      ([], child) :: map (fun d => (child :: d.1, d.2)) (descendants child))
                   siblings)).

(** The kind-specific projection of the choices. *)
Definition choices_line (env : environment) (child : CameraWidget) : string :=
  match get_type child with
  | GP_WIDGET_RADIO | GP_WIDGET_MENU =>
      "  Choices     : " +:+ str_list env (get_choices child)
  | GP_WIDGET_RANGE =>
      "  Choices     : min=" +:+ (get_range child).1.1 +:+ ", max="
      +:+ (get_range child).1.2 +:+ ", step=" +:+ (get_range child).2
  | GP_WIDGET_TOGGLE => "  Choices     : [0, 1]"
  | _ => "  Choices     : n/a"
  end.

(** One descriptor: the lines logged for one node. *)
Definition descriptor (env : environment) (entry : string * CameraWidget)
    : list string :=
  let '(path, child) := entry in
  [ path;
    "  Label       : " +:+ get_label child;
    "  Readonly    : " +:+ (if get_readonly child then "yes" else "no");
    "  Data type   : " +:+ str_type (get_value child);
    "  Widget type : " +:+ gp_widget_types (get_type child);
    "  Current     : " +:+ str_value (get_value child);
    choices_line env child ].

(** [write_log] on each line in turn. *)
Definition write_lines (lines : list string) (l : Logger.t) : Logger.t :=
  foldl (fun l text => Logger.write_log text false l) l lines.



(** ** What the accessors have in common *)

(** The three driver calls both accessors start with; [opt] is the
    source's [option]. *)
Definition resolve {World} (driver : forall A, gp_op A -> World -> reply World A)
    (section opt : string) : M World (CameraWidget * CameraWidget) :=
  config <- call driver Camera_get_config ;;
  sec <- call driver (Widget_get_child_by_name config section) ;;
  child <- call driver (Widget_get_child_by_name sec opt) ;;
  ret (config, child).

(** [needle in text] on two [str]. *)
Fixpoint contains (needle text : string) : bool :=
  String.prefix needle text
  || match text with
     | "" => false
     | String _ text' => contains needle text'
     end.

(** The state in which [main]'s [try] block is entered: the two capability
    lines have been logged. *)
Definition flags_logged {World} (operations : Z) (s : state World) : state World :=
  with_log (write_lines [preview_line (preview_compat operations);
                         capture_line (capture_compat operations)]) s.

(** ** Two devices that differ in the preview bit only *)

Definition same_but_preview (a b : Z) : Prop :=
  Z.lor a GP_OPERATION_CAPTURE_PREVIEW = Z.lor b GP_OPERATION_CAPTURE_PREVIEW.

(** Two answers to one call agree when they are equal, except that the
    abilities need only be the same up to the preview bit. *)
Definition answers_agree {A} (op : gp_op A) : gp_result A -> gp_result A -> Prop :=
  match op in gp_op A return gp_result A -> gp_result A -> Prop with
  | Camera_get_abilities => fun x y =>
      match x, y with
      | GpOk a, GpOk b => same_but_preview a b
      | GpError code text, GpError code' text' => code = code' /\ text = text'
      | _, _ => False
      end
  | _ => eq
  end.

(** [R] pairs up the states of two devices that behave alike: each call
    gets the same messages and agreeing answers from both, and leaves them
    paired. *)
Definition twin_devices {World} (driver : forall A, gp_op A -> World -> reply World A)
    (R : World -> World -> Prop) : Prop :=
  forall A (op : gp_op A) w1 w2,
    R w1 w2 ->
    r_messages (driver A op w1) = r_messages (driver A op w2)
    /\ answers_agree op (r_result (driver A op w1)) (r_result (driver A op w2))
    /\ R (r_world (driver A op w1)) (r_world (driver A op w2)).

(** A sequence of [write_log] calls, each a text and its [new_section]. *)
Definition replay (records : list (string * bool)) (l : Logger.t) : Logger.t :=
  foldl (fun l r => Logger.write_log r.1 r.2 l) l records.

(** Two runs side by side: paired devices, the same calls made, the same
    files, and logs that grew from [base1] and [base2] by the same
    records. *)
Definition twin_states {World} (R : World -> World -> Prop) (base1 base2 : Logger.t)
    (s1 s2 : state World) : Prop :=
  R (world s1) (world s2)
  /\ gp_log_callback s1 = gp_log_callback s2
  /\ calls s1 = calls s2
  /\ files s1 = files s2
  /\ exists records, log s1 = replay records base1 /\ log s2 = replay records base2.

Definition twin_outcomes {A} (RA : A -> A -> Prop) (o1 o2 : outcome A) : Prop :=
  match o1, o2 with
  | Return a, Return b => RA a b
  | Raise ex, Raise ex' => ex = ex'
  | SystemExit status, SystemExit status' => status = status'
  | _, _ => False
  end.

(** Two pieces of script that keep two runs side by side. *)
Definition twin {World A} (R : World -> World -> Prop) (RA : A -> A -> Prop)
    (base1 base2 : Logger.t) (p1 p2 : M World A) : Prop :=
  forall s1 s2,
    twin_states R base1 base2 s1 s2 ->
    twin_outcomes RA (p1 s1).1 (p2 s2).1
    /\ twin_states R base1 base2 (p1 s1).2 (p2 s2).2.

(** The console entry point runs [sys.exit(main())]: falling off the end of
    [main] is status 0, an exception nobody caught ends the interpreter with
    status 1, and [sys.exit(n)] gives [n]. *)
Definition exit_status {A} (o : outcome A) : Z :=
  match o with
  | Return _ => 0
  | Raise _ => 1
  | SystemExit status => status
  end.

(** A fresh process: nothing called, nothing printed, log file not opened. *)
Definition start {World} (w : World) (dir : gmap string (list Byte.byte)) : state World :=
  State w false [] Logger.initial dir.

Definition op_name {A} (op : gp_op A) : string :=
  match op with
  | gp_log_add_func => "gp_log_add_func"
  | gp_camera_autodetect => "gp_camera_autodetect"
  | PortInfoList_new => "PortInfoList"
  | PortInfoList_load => "PortInfoList.load"
  | CameraAbilitiesList_new => "CameraAbilitiesList"
  | CameraAbilitiesList_load => "CameraAbilitiesList.load"
  | CameraAbilitiesList_detect => "CameraAbilitiesList.detect"
  | Camera_new => "Camera"
  | Camera_init => "Camera.init"
  | Camera_get_abilities => "Camera.get_abilities"
  | Camera_get_config => "Camera.get_config"
  | Widget_get_child_by_name _ _ => "CameraWidget.get_child_by_name"
  | Widget_set_value _ _ => "CameraWidget.set_value"
  | Camera_set_config _ => "Camera.set_config"
  | Camera_capture_preview => "Camera.capture_preview"
  | Camera_capture => "Camera.capture"
  | Camera_file_get _ _ => "Camera.file_get"
  | File_get_data_and_size _ => "CameraFile.get_data_and_size"
  | Camera_exit => "Camera.exit"
  end.

Definition call_name (c : gp_call * bool) : string := op_name (projT2 c.1).

(** The calls of a run by name, each with whether it succeeded. *)
Definition trace {World} (s : state World) : list (string * bool) :=
  map (fun c => (call_name c, c.2)) (calls s).

(** ** What a piece of the script can be relied on to do *)

(** A piece of the script that can only end by falling through or with the
    binding's own error. *)
Definition driver_errors_only {World A} (m : M World A) : Prop :=
  forall s, match (m s).1 with
            | Return _ | Raise (GPhoto2Error _ _) => True
            | _ => False
            end.

(** What a piece of the script is known not to do: unless [exits], it does
    not call [sys.exit]; unless [writes], it leaves the working directory
    alone; and in no case does it call [camera.exit()]. *)
Definition quiet {World A} (exits writes : bool) (p : M World A) : Prop :=
  forall s,
    (exits = false -> forall status, (p s).1 <> SystemExit status)
    /\ (writes = false -> files (p s).2 = files s)
    /\ exists new, calls (p s).2 = (calls s ++ new)%list
                   /\ Forall (fun c => call_name c <> "Camera.exit") new.

(** The line [gp_logging] writes for one message of the driver. *)
Definition gp_line (message : string * string) : string :=
  "Gphoto2: " +:+ message.1 +:+ ": " +:+ message.2.

(** A piece of the script that, when it ends with the binding's error, ends
    right at the driver call that failed: that call is the last one made. *)
Definition stops_at_failure {World A} (p : M World A) : Prop :=
  forall s code text s1,
    p s = (Raise (GPhoto2Error code text), s1) ->
    exists before c, calls s1 = (before ++ [(c, false)])%list.

(** ** A simulated camera, to run the script on *)

Module Sim.

(** The device: what it lists, what it can do, its settings, the bytes of
    a capture, and the calls that fail on it. *)
Record camera := Camera {
  listed : CameraList;
  operations : Z;
  config : CameraWidget;
  shot : list Byte.byte;
  failing : list string
}.

Definition leaf (name : string) (type : widget_type) (value : gp_value)
    (choices : list string) : CameraWidget :=
  Widget name name type false value choices ("0", "1", "1") [].

Definition node (name : string) (type : widget_type)
    (children : list CameraWidget) : CameraWidget :=
  Widget name name type false (VStr "") [] ("0", "0", "0") children.

Definition find_child (w : CameraWidget) (name : string) : option CameraWidget :=
  List.find (fun c => bool_decide (get_name c = name)) (get_children w).

Definition answer {A} (op : gp_op A) (c : camera) : gp_result A :=
  match op in gp_op A return gp_result A with
  | gp_log_add_func => GpOk tt
  | gp_camera_autodetect => GpOk (listed c)
  | PortInfoList_new => GpOk tt
  | PortInfoList_load => GpOk tt
  | CameraAbilitiesList_new => GpOk tt
  | CameraAbilitiesList_load => GpOk tt
  | CameraAbilitiesList_detect => GpOk (listed c)
  | Camera_new => GpOk tt
  | Camera_init => GpOk tt
  | Camera_get_abilities => GpOk (operations c)
  | Camera_get_config => GpOk (config c)
  | Widget_get_child_by_name w name =>
      match find_child w name with
      | Some child => GpOk child
      | None => GpError (-2) "[-2] Bad parameters"
      end
  | Widget_set_value _ _ => GpOk tt
  | Camera_set_config _ => GpOk tt
  | Camera_capture_preview => GpOk 0%N
  | Camera_capture => GpOk (FilePath "/store" "capt0000.jpg")
  | Camera_file_get _ _ => GpOk 1%N
  | File_get_data_and_size _ => GpOk (shot c)
  | Camera_exit => GpOk tt
  end.

Definition driver (A : Type) (op : gp_op A) (c : camera) : reply camera A :=
  Reply [("sim", op_name op)]
        (if bool_decide (op_name op ∈ failing c)
         then GpError (-7) "[-7] I/O problem"
         else answer op c)
        c.

(** Surroundings in which gphoto2 is installed and PIL takes any
    non-empty buffer. *)
Definition env : environment :=
  Environment "2.0.0" ["pibooth-picture-template"] true
              (Some ["2.5.27"; "gcc"]) true
              (fun s => "'" +:+ s +:+ "'")
              (list Byte.byte)
              (fun data => if data is [] then inl "cannot identify image file" else inr data)
              (fun image => inr image).

Definition settings : CameraWidget :=
  node "main" GP_WIDGET_WINDOW
    [ node "actions" GP_WIDGET_SECTION
        [ leaf "viewfinder" GP_WIDGET_TOGGLE (VInt 0) [] ];
      node "imgsettings" GP_WIDGET_SECTION
        [ leaf "iso" GP_WIDGET_RADIO (VStr "200") ["100"; "200"] ];
      node "settings" GP_WIDGET_SECTION
        [ leaf "capturetarget" GP_WIDGET_RADIO (VStr "Internal RAM") [] ] ].

Definition dslr (operations : Z) (failing : list string) : camera :=
  Camera [("Nikon DSC D5300", "usb:001,004"); ("Canon EOS 700D", "usb:001,005")]
         operations settings [x01; x02]%byte failing.



Definition run (c : camera) : outcome unit * state camera :=
  main driver env (start c ∅).

End Sim.

(** ** Vocabulary for the further properties *)

(** What one [write_log] call adds to the log file: the rule when a new
    section starts, the text, a newline. *)
Definition record_text (r : string * bool) : string :=
  (if r.2 then Logger.section_rule +:+ Py.nl else "") +:+ r.1 +:+ Py.nl.

Definition records_text (records : list (string * bool)) : string :=
  foldr (fun r rest => record_text r +:+ rest) "" records.

(** The lines [main] logs before it touches the driver, gphoto2 being
    installed (lines 131 to 153). *)
Definition header_lines (env : environment) : list string :=
  [ "Pibooth version installed: " +:+ pibooth_version env;
    "Installed plugins: " +:+ Py.join ", " (external_plugins env) ]
  ++ match gp_library_version env with
     | Some (version :: options) =>
         ("GPhoto2 version installed: " +:+ version)
         :: map (fun opt => "  - " +:+ opt) options
     | _ => []
     end.

(** The state in which [main] calls [camera_connected] (line 157): the
    header is logged, [gp_log_add_func] has returned and its hook is
    registered, the listing is announced. *)
Definition listing {World} (driver : forall A, gp_op A -> World -> reply World A)
    (env : environment) (s : state World) : state World :=
  let s1 := after_call driver gp_log_add_func
              (with_log (write_lines (header_lines env)) s) in
  with_log (Logger.write_log "Listing all connected DSLR camera" false)
           (State (world s1) true (calls s1) (log s1) (files s1)).

(** The ways a piece of [main] is allowed to end: by falling through, with
    the binding's error, or with [sys.exit(1)]. *)
Definition tame {World A} (p : M World A) : Prop :=
  forall s, match (p s).1 with
            | Return _ | Raise (GPhoto2Error _ _) => True
            | Raise (PyException _) => False
            | SystemExit status => status = 1
            end.




(** A piece of the script that makes no call of the given name. *)
Definition avoids {World A} (name : string) (p : M World A) : Prop :=
  forall s, exists new, calls (p s).2 = (calls s ++ new)%list
                        /\ Forall (fun c => call_name c <> name) new.

(** A piece of the script in which every call named [later] comes after a
    successful call named [earlier]. *)
Definition only_after {World A} (earlier later : string) (p : M World A) : Prop :=
  forall s, exists new,
    calls (p s).2 = (calls s ++ new)%list
    /\ forall before ok after,
         map (fun c => (call_name c, c.2)) new = (before ++ (later, ok) :: after)%list ->
         (earlier, true) ∈ before.

(** Surroundings without gphoto2. *)
Definition no_gphoto : environment :=
  Environment "2.0.0" [] false None false (fun s => "'" +:+ s +:+ "'")
              (list Byte.byte) (fun data => inr data) (fun image => inr image).

(** Surroundings with an old gphoto2 that has no [gp_camera_autodetect]. *)
Definition old_gphoto : environment :=
  Environment "2.0.0" [] true (Some ["2.4.14"]) false (fun s => "'" +:+ s +:+ "'")
              (list Byte.byte) (fun data => inr data) (fun image => inr image).

(** A simulated bus with no camera on it. *)
Definition nothing_listed : Sim.camera :=
  Sim.Camera [] 9 Sim.settings [x01]%byte [].

(** * Properties *)

(** ** Text *)

Lemma append_cons (x : ascii) (a b : string) :
  String x a +:+ b = String x (a +:+ b).
Proof. reflexivity. Qed.

Lemma append_assoc (a b c : string) : (a +:+ b) +:+ c = a +:+ (b +:+ c).
Proof.
  induction a as [|x a IH]; [done|]. by rewrite !append_cons, IH.
Qed.

Lemma append_nil_r (a : string) : a +:+ "" = a.
Proof.
  induction a as [|x a IH]; [done|]. by rewrite append_cons, IH.
Qed.

Lemma slice_to_length (n : nat) (text : string) :
  (n <= String.length text)%nat -> String.length (Py.slice_to n text) = n.
Proof.
  unfold Py.slice_to. revert text.
  induction n as [|n IH]; intros [|c text] Hn; simpl in *; try lia; try done.
  f_equal. apply IH. lia.
Qed.

Lemma slice_to_all (n : nat) (text : string) :
  (String.length text <= n)%nat -> Py.slice_to n text = text.
Proof.
  unfold Py.slice_to. revert text.
  induction n as [|n IH]; intros [|c text] Hn; simpl in *; try lia; try done.
  f_equal. apply IH. lia.
Qed.

Lemma slice_to_prefix (n : nat) (text : string) :
  exists rest, text = Py.slice_to n text +:+ rest
               /\ String.length rest = (String.length text - n)%nat.
Proof.
  unfold Py.slice_to. revert text.
  induction n as [|n IH]; intros [|c text]; simpl.
  - by exists "".
  - by exists (String c text).
  - by exists "".
  - destruct (IH text) as (rest & Heq & Hlen). exists rest. split; [|done].
    by rewrite append_cons, <- Heq.
Qed.

(** ** The logger *)

(** C8.  Whatever the text: the console receives its first 200 characters
    (that is all of it when it has at most 200) and, exactly when it has more
    than 200, the truncation marker after them; the log file receives the
    whole text and a newline.  With [new_section] the rule comes first in
    both. *)
Theorem write_log_truncation (text : string) (new_section : bool) (l : Logger.t) :
  let l' := Logger.write_log text new_section l in
  let rule := if new_section then Logger.section_rule +:+ Py.nl else "" in
  let long := (200 <? String.length text)%nat in
  Logger.stdout l' =
    Logger.stdout l +:+ rule +:+ Py.slice_to 200 text +:+ Py.nl
    +:+ (if long then Logger.truncation_marker +:+ Py.nl else "")
  /\ Logger.LOGFILE l' = Some (Logger.file_text l +:+ rule +:+ text +:+ Py.nl)
  /\ (if long
      then String.length (Py.slice_to 200 text) = 200%nat
           /\ exists rest, rest <> "" /\ text = Py.slice_to 200 text +:+ rest
      else Py.slice_to 200 text = text).
Proof.
  intros l' rule long. subst l' rule long.
  destruct l as [out file]. unfold Logger.write_log, Logger.file_text.
  split; [|split].
  - destruct new_section, (200 <? String.length text)%nat, file; simpl;
      rewrite ?append_assoc, ?append_nil_r; reflexivity.
  - destruct new_section, (200 <? String.length text)%nat, file; simpl;
      rewrite ?append_assoc, ?append_nil_r; reflexivity.
  - destruct (Nat.ltb_spec 200 (String.length text)) as [Hlong|Hshort].
    + split; [apply slice_to_length; lia|].
      destruct (slice_to_prefix 200 text) as (rest & Heq & Hlen).
      exists rest. split; [|done]. intros ->. simpl in Hlen. lia.
    + by apply slice_to_all.
Qed.

(** ** Listing the cameras *)

Section Sorted.

Context {A : Type} (key : A -> string).

Let by_key (a b : A) : Prop := (key a ≤ key b)%string.






(** The sort keeps the order of entries whose keys are equal. *)
Lemma insert_sorted_first (x : A) (l : list A) :
  Forall (by_key x) l -> Py.insert_sorted key x l = x :: l.
Proof.
  destruct 1 as [|y l Hy _]; simpl; [done|].
  unfold by_key, String.le in Hy. by destruct (String.leb (key x) (key y)).
Qed.

End Sorted.

(** What [camera_connected] returns is the list of the driver's detection
    call, as the driver gave it. *)
Lemma camera_connected_returns {World} (driver : forall A, gp_op A -> World -> reply World A)
    (env : environment) (s s' : state World) (cameras : CameraList) :
  camera_connected driver env s = (Return cameras, s') ->
  exists w, r_result (driver _ (if has_autodetect env
                                then gp_camera_autodetect
                                else CameraAbilitiesList_detect) w) = GpOk cameras.
Proof.
  unfold camera_connected. destruct (has_autodetect env).
  - unfold call. intros H. exists (world s).
    destruct (r_result _); by simplify_eq.
  - unfold bind, call.
    repeat (match goal with
            | |- context [r_result (driver ?A ?op ?w)] =>
                lazymatch op with
                | CameraAbilitiesList_detect => fail
                | _ => destruct (r_result (driver A op w)); [|done]
                end
            end).
    intros H. eexists. destruct (r_result _) eqn:E; simplify_eq. exact E.
Qed.




(** ** Dumping the configuration tree *)


Lemma join_step (sep a b : string) (rest : list string) :
  rest <> [] ->
  Py.join sep (a :: b :: rest) = Py.join sep ((a +:+ sep +:+ b) :: rest).
Proof.
  destruct rest as [|c rest]; [done|]. intros _.
  change (a +:+ sep +:+ (b +:+ sep +:+ Py.join sep (c :: rest))
          = (a +:+ sep +:+ b) +:+ sep +:+ Py.join sep (c :: rest)).
  by rewrite !append_assoc.
Qed.

Lemma write_lines_app (l1 l2 : list string) (l : Logger.t) :
  write_lines (l1 ++ l2) l = write_lines l2 (write_lines l1 l).
Proof. apply foldl_app. Qed.

Lemma filter_map_comm {A B} (g : B -> bool) (p : A -> B) (l : list A) :
  List.filter g (map p l) = map p (List.filter (fun a => g (p a)) l).
Proof.
  induction l as [|a l IH]; simpl; [done|].
  destruct (g (p a)); simpl; by rewrite IH.
Qed.


Lemma reported_children (config : CameraWidget) (parent : string) :
  reported config parent = reported_among parent (get_children config).
Proof. by destruct config. Qed.

Lemma reported_among_cons (parent : string) (c : CameraWidget) (cs : list CameraWidget) :
  reported_among parent (c :: cs) =
    ((if is_section c
      then reported c (Py.join "/" [parent; get_name c])
      else [(Py.join "/" [parent; get_name c], c)])
     ++ reported_among parent cs)%list.
Proof.
  unfold reported_among at 1. simpl flat_map.
  rewrite app_comm_cons, List.filter_app, map_app. f_equal.
  simpl List.filter. rewrite filter_map_comm. simpl.
  destruct (is_section c) eqn:Hc; simpl.
  - unfold reported. rewrite map_map. apply map_ext. intros [anc n]. simpl.
    change (Py.join "/" [parent; get_name c]) with (parent +:+ "/" +:+ get_name c).
    f_equal. apply join_step.
    by destruct (map get_name anc).
  - f_equal. by induction (descendants c).
Qed.

Section Dump.

Context {World : Type} (env : environment).

Lemma print_config_eq (config : CameraWidget) (parent : string) :
  print_config (World:=World) env config parent
  = for_each (print_child env parent) (get_children config).
Proof. by destruct config. Qed.

(** A node that is not a section gets its descriptor. *)
Lemma print_child_leaf (parent : string) (child : CameraWidget) (s : state World) :
  is_section child = false ->
  print_child env parent child s
  = (Return tt,
     with_log (write_lines (descriptor env (Py.join "/" [parent; get_name child], child)))
              s).
Proof.
  unfold is_section, print_child, descriptor, choices_line. intros Hc.
  destruct (get_range child) as [[min max] step].
  destruct (get_type child); try done; reflexivity.
Qed.

Lemma with_log_lines_app (l1 l2 : list string) (s : state World) :
  with_log (write_lines (l1 ++ l2)) s
  = with_log (write_lines l2) (with_log (write_lines l1) s).
Proof. unfold with_log. simpl. by rewrite write_lines_app. Qed.

Lemma with_log_no_lines (s : state World) : with_log (write_lines []) s = s.
Proof. by destruct s. Qed.

Lemma print_config_lines (config : CameraWidget) :
  forall (parent : string) (s : state World),
    print_config env config parent s
    = (Return tt,
       with_log (write_lines (flat_map (descriptor env) (reported config parent))) s).
Proof.
  induction config as [config IH] using CameraWidget_tree_ind.
  intros parent s. rewrite print_config_eq, reported_children.
  revert s. induction IH as [|c cs Hc _ IHcs]; intros s.
  - by rewrite with_log_no_lines.
  - rewrite reported_among_cons, flat_map_app, with_log_lines_app.
    change (for_each (print_child env parent) (c :: cs) s)
      with (bind (print_child env parent c)
                 (fun _ => for_each (print_child env parent) cs) s).
    unfold bind at 1.
    destruct (is_section c) eqn:Hsec.
    + assert (print_child env parent c s
              = print_config env c (Py.join "/" [parent; get_name c]) s) as ->.
      { unfold print_child, is_section in *. by destruct (get_type c). }
      by rewrite Hc, IHcs.
    + rewrite print_child_leaf by done. rewrite IHcs.
      simpl flat_map. by rewrite ?app_nil_r.
Qed.

End Dump.




(** ** The two accessors *)

Section Accessors.

Context {World : Type}.
Variable driver : forall A, gp_op A -> World -> reply World A.
Variable env : environment.


Lemma call_driver_errors_only {A} (op : gp_op A) : driver_errors_only (call driver op).
Proof. intros s. unfold call. by destruct (r_result _). Qed.

Lemma write_log_driver_errors_only (text : string) (new_section : bool) :
  driver_errors_only (write_log text new_section : M World unit).
Proof. by intros s. Qed.

Lemma ret_driver_errors_only {A} (a : A) : driver_errors_only (ret a : M World A).
Proof. by intros s. Qed.

Lemma bind_driver_errors_only {A B} (m : M World A) (k : A -> M World B) :
  driver_errors_only m -> (forall a, driver_errors_only (k a)) ->
  driver_errors_only (bind m k).
Proof.
  intros Hm Hk s. unfold bind. specialize (Hm s).
  destruct (m s) as [[a|[code text|text]|status] s1]; try done. apply Hk.
Qed.

Lemma set_config_value_try_driver_errors_only (section opt : string) (value : gp_value) :
  driver_errors_only (set_config_value_try driver env section opt value).
Proof.
  unfold set_config_value_try.
  repeat first
    [ apply bind_driver_errors_only; [|intros ?]
    | apply call_driver_errors_only
    | apply write_log_driver_errors_only
    | apply ret_driver_errors_only
    | match goal with |- driver_errors_only (if ?b then _ else _) => destruct b end ].
Qed.

Lemma get_config_value_try_driver_errors_only (section opt : string) :
  driver_errors_only (get_config_value_try driver section opt).
Proof.
  unfold get_config_value_try.
  repeat first
    [ apply bind_driver_errors_only; [|intros ?]
    | apply call_driver_errors_only
    | apply write_log_driver_errors_only
    | apply ret_driver_errors_only ].
Qed.









Lemma bind_assoc {A B C} (m : M World A) (k : A -> M World B) (k' : B -> M World C)
    (s : state World) :
  bind (bind m k) k' s = bind m (fun a => bind (k a) k') s.
Proof. unfold bind. by destruct (m s) as [[] ?]. Qed.

Lemma bind_ext {A B} (m : M World A) (k k' : A -> M World B) (s : state World) :
  (forall a s', k a s' = k' a s') -> bind m k s = bind m k' s.
Proof. intros H. unfold bind. destruct (m s) as [[] ?]; by rewrite ?H. Qed.


Lemma deliver_eq (messages : list (string * string)) (s : state World) :
  deliver messages s = with_log (write_lines (map gp_line messages)) s.
Proof.
  revert s. induction messages as [|m messages IH]; intros s.
  - by destruct s.
  - change (deliver (m :: messages) s)
      with (deliver messages (with_log (Logger.write_log (gp_line m) false) s)).
    by rewrite IH.
Qed.

Lemma after_call_eq {A} (op : gp_op A) (s : state World) :
  after_call driver op s
  = State (r_world (driver A op (world s)))
          (gp_log_callback s)
          (calls s ++ [(called op, succeeded (r_result (driver A op (world s))))])
          (write_lines (if gp_log_callback s
                        then map gp_line (r_messages (driver A op (world s)))
                        else [])
                       (log s))
          (files s).
Proof.
  unfold after_call. destruct (gp_log_callback s); [|done].
  by rewrite deliver_eq.
Qed.

Lemma set_config_value_try_eq (section opt : string) (value : gp_value)
    (s : state World) :
  set_config_value_try driver env section opt value s
  = bind (resolve driver section opt)
         (fun found =>
            (if truthy (if decide (get_type found.2 = GP_WIDGET_RADIO)
                        then Some (get_choices found.2) else None)
                && negb (value_in value
                           (default [] (if decide (get_type found.2 = GP_WIDGET_RADIO)
                                        then Some (get_choices found.2) else None)))
             then write_log (invalid_line env opt value
                               (default [] (if decide (get_type found.2 = GP_WIDGET_RADIO)
                                            then Some (get_choices found.2) else None)))
                            false
             else ret tt) ;;
            call driver (Widget_set_value found.2 value) ;;
            call driver (Camera_set_config found.1))
         (with_log (Logger.write_log (setting_line section opt value) false) s).
Proof.
  unfold set_config_value_try, resolve.
  etrans; [|symmetry; apply bind_assoc].
  unfold bind at 1, write_log at 1. cbv beta iota.
  apply bind_ext; intros config s1.
  etrans; [|symmetry; apply bind_assoc]. apply bind_ext; intros sec s2.
  etrans; [|symmetry; apply bind_assoc]. apply bind_ext; intros child s3.
  reflexivity.
Qed.

(** C5, as the code has it.  When the node resolved by [set_config_value] is
    a radio whose list of choices is not empty and does not hold the value,
    the invalid-value line is logged and the write goes ahead from there:
    [set_value] on the node and, unless that raised, [set_config] with the
    snapshot. *)
Theorem set_config_value_invalid_choice (section opt : string) (value : gp_value)
    (s s1 : state World) (config child : CameraWidget) :
  resolve driver section opt
    (with_log (Logger.write_log (setting_line section opt value) false) s)
  = (Return (config, child), s1) ->
  get_type child = GP_WIDGET_RADIO ->
  get_choices child <> [] ->
  value_in value (get_choices child) = false ->
  let s2 := with_log (Logger.write_log
                        (invalid_line env opt value (get_choices child)) false) s1 in
  let wrote := r_result (driver _ (Widget_set_value child value) (world s1)) in
  let committed :=
    r_result (driver _ (Camera_set_config config)
                     (world (after_call driver (Widget_set_value child value) s2))) in
  set_config_value driver env section opt value s
  = try_except
      (call driver (Widget_set_value child value) ;;
       call driver (Camera_set_config config))
      is_GPhoto2Error
      (fun _ => write_log (unsupported_line section opt value) false) s2
  /\ exists s', set_config_value driver env section opt value s = (Return tt, s')
       /\ calls s' =
            (calls s1 ++ (called (Widget_set_value child value), succeeded wrote)
               :: (if succeeded wrote
                   then [(called (Camera_set_config config), succeeded committed)]
                   else []))%list.
Proof.
  intros Hres Hradio Hchoices Hvalue s2 wrote committed.
  assert (set_config_value driver env section opt value s
          = try_except
              (call driver (Widget_set_value child value) ;;
               call driver (Camera_set_config config))
              is_GPhoto2Error
              (fun _ => write_log (unsupported_line section opt value) false) s2) as Heq.
  { unfold set_config_value, try_except.
    rewrite set_config_value_try_eq. unfold bind at 1. rewrite Hres. simpl fst; simpl snd.
    rewrite Hradio.
    destruct (decide (GP_WIDGET_RADIO = GP_WIDGET_RADIO)) as [_|?]; [|done].
    simpl default. rewrite Hvalue. unfold truthy.
    destruct (get_choices child); done. }
  split; [exact Heq|]. rewrite Heq. subst wrote committed.
  unfold try_except, bind, call.
  change (world s2) with (world s1).
  destruct (r_result (driver () (Widget_set_value child value) (world s1)))
    as [[]|] eqn:Hw; simpl.
  - destruct (r_result (driver () (Camera_set_config config) _)) as [[]|] eqn:Hc; simpl.
    + rewrite after_call_eq in Hc. simpl in Hc.
      eexists. split; [reflexivity|].
      rewrite !after_call_eq. simpl. rewrite Hw, Hc. by rewrite <- app_assoc.
    + rewrite after_call_eq in Hc. simpl in Hc.
      eexists. split; [reflexivity|].
      rewrite !after_call_eq. simpl. rewrite Hw, Hc. by rewrite <- app_assoc.
  - eexists. split; [reflexivity|]. rewrite !after_call_eq. simpl. by rewrite Hw.
Qed.

End Accessors.

Lemma set_config_value_invalid_choice_witness :
  exists s',
    set_config_value Sim.driver Sim.env "imgsettings" "iso" (VStr "400")
                     (start (Sim.dslr 9 []) ∅) = (Return tt, s')
    /\ List.length (calls s') = 5%nat.
Proof.
  edestruct (set_config_value_invalid_choice Sim.driver Sim.env
               "imgsettings" "iso" (VStr "400") (start (Sim.dslr 9 []) ∅))
    as [_ (s' & Hs' & Hcalls)].
  - reflexivity.
  - reflexivity.
  - discriminate.
  - reflexivity.
  - exists s'. split; [exact Hs'|]. rewrite Hcalls. reflexivity.
Defined.

(** C5, as stated, fails for a radio that declares no choices: the value is
    not among them, yet no invalid-value line is logged (the write is still
    made). *)
Lemma set_config_value_no_choices_no_warning :
  let s := start (Sim.dslr 9 []) ∅ in
  let value := VStr "Memory card" in
  exists config child s1 s',
    resolve Sim.driver "settings" "capturetarget"
      (with_log (Logger.write_log (setting_line "settings" "capturetarget" value) false) s)
    = (Return (config, child), s1)
    /\ get_type child = GP_WIDGET_RADIO
    /\ value_in value (get_choices child) = false
    /\ set_config_value Sim.driver Sim.env "settings" "capturetarget" value s
       = (Return tt, s')
    /\ contains "invalid value" (Logger.file_text (log s')) = false
    /\ trace s' = [("Camera.get_config", true);
                   ("CameraWidget.get_child_by_name", true);
                   ("CameraWidget.get_child_by_name", true);
                   ("CameraWidget.set_value", true);
                   ("Camera.set_config", true)].
Proof.
  do 4 eexists. split; [reflexivity|]. split; [reflexivity|]. split; [reflexivity|].
  split; [reflexivity|]. split; reflexivity.
Qed.

(** ** The pipeline *)

Section Pipeline.

Context {World : Type}.
Variable driver : forall A, gp_op A -> World -> reply World A.
Variable env : environment.


Lemma quiet_here {A} (exits writes : bool) (p : M World A) :
  (forall s, (exits = false -> forall status, (p s).1 <> SystemExit status)
             /\ files (p s).2 = files s /\ calls (p s).2 = calls s) ->
  quiet exits writes p.
Proof.
  intros H s. destruct (H s) as (He & Hf & Hc). split; [done|]. split; [done|].
  exists []. by rewrite app_nil_r.
Qed.

Lemma quiet_ret {A} (exits writes : bool) (a : A) :
  quiet exits writes (ret a : M World A).
Proof. by apply quiet_here. Qed.

Lemma quiet_raise {A} (exits writes : bool) (ex : exn) :
  quiet exits writes (raise ex : M World A).
Proof. by apply quiet_here. Qed.

Lemma quiet_sys_exit {A} (writes : bool) (status : Z) :
  quiet true writes (sys_exit status : M World A).
Proof. by apply quiet_here. Qed.

Lemma quiet_write_log (exits writes : bool) (text : string) (new_section : bool) :
  quiet exits writes (write_log text new_section : M World unit).
Proof. by apply quiet_here. Qed.

Lemma quiet_set_gp_log_callback (exits writes : bool) (alive : bool) :
  quiet exits writes (set_gp_log_callback alive : M World unit).
Proof. by apply quiet_here. Qed.

Lemma quiet_pil {A} (exits writes : bool) (r : string + A) :
  quiet exits writes (pil r : M World A).
Proof. destruct r; by apply quiet_here. Qed.

Lemma quiet_write_file (exits : bool) (path : string) (data : list Byte.byte) :
  quiet exits true (write_file path data : M World unit).
Proof.
  intros s. split; [done|]. split; [done|]. exists []. by rewrite app_nil_r.
Qed.

Lemma quiet_call {A} (exits writes : bool) (op : gp_op A) :
  op_name op <> "Camera.exit" -> quiet exits writes (call driver op).
Proof.
  intros Hop s. unfold call.
  assert (files (after_call driver op s) = files s
          /\ exists new, calls (after_call driver op s) = (calls s ++ new)%list
                         /\ Forall (fun c => call_name c <> "Camera.exit") new)
    as [Hf Hc].
  { rewrite after_call_eq. split; [done|]. eexists. split; [reflexivity|].
    by constructor. }
  destruct (r_result _); simpl; (split; [done|]); by split.
Qed.

Lemma quiet_bind {A B} (exits writes : bool) (m : M World A) (k : A -> M World B) :
  quiet exits writes m -> (forall a, quiet exits writes (k a)) ->
  quiet exits writes (bind m k).
Proof.
  intros Hm Hk s. unfold bind.
  destruct (Hm s) as (He & Hf & new & Hc & Hnew).
  destruct (m s) as [[a|ex|status] s1]; simpl in *.
  - destruct (Hk a s1) as (He' & Hf' & new' & Hc' & Hnew').
    split; [done|]. split; [intros ->; by rewrite Hf', Hf|].
    exists (new ++ new')%list. split; [by rewrite Hc', Hc, app_assoc|].
    by apply Forall_app.
  - split; [done|]. split; [done|]. by exists new.
  - split; [|split; [done|by exists new]].
    intros Hex status' _. by apply (He Hex status).
Qed.

Lemma quiet_try_except {A} (exits writes : bool) (body : M World A)
    (catches : exn -> bool) (handler : exn -> M World A) :
  quiet exits writes body -> (forall ex, quiet exits writes (handler ex)) ->
  quiet exits writes (try_except body catches handler).
Proof.
  intros Hb Hh s. unfold try_except.
  destruct (Hb s) as (He & Hf & new & Hc & Hnew).
  destruct (body s) as [[a|ex|status] s1]; simpl in *.
  - split; [done|]. split; [done|]. by exists new.
  - destruct (catches ex).
    + destruct (Hh ex s1) as (He' & Hf' & new' & Hc' & Hnew').
      split; [done|]. split; [intros ->; by rewrite Hf', Hf|].
      exists (new ++ new')%list. split; [by rewrite Hc', Hc, app_assoc|].
      by apply Forall_app.
    + split; [done|]. split; [done|]. by exists new.
  - split; [exact He|]. split; [done|]. by exists new.
Qed.

Lemma quiet_for_each {A} (exits writes : bool) (body : A -> M World unit)
    (l : list A) :
  (forall x, quiet exits writes (body x)) -> quiet exits writes (for_each body l).
Proof.
  intros Hbody. induction l as [|x l IH].
  - apply quiet_ret.
  - apply (quiet_bind _ _ (body x) (fun _ => for_each body l)); [apply Hbody|done].
Qed.

Lemma quiet_print_config (exits writes : bool) (config : CameraWidget)
    (parent : string) :
  quiet exits writes (print_config env config parent : M World unit).
Proof. apply quiet_here. intros s. by rewrite print_config_lines. Qed.

Ltac quiet_steps :=
  repeat first
    [ apply quiet_bind; [|intros ?]
    | apply quiet_try_except; [|intros ?]
    | apply quiet_for_each; intros ?
    | apply quiet_call; discriminate
    | apply quiet_write_log
    | apply quiet_ret
    | apply quiet_sys_exit
    | apply quiet_pil
    | apply quiet_write_file
    | apply quiet_set_gp_log_callback
    | apply quiet_print_config
    | match goal with
      | |- quiet _ _ (if ?b then _ else _) => destruct b
      | |- quiet _ _ (match ?x with _ => _ end) => destruct x
      | |- quiet _ _ (let _ := _ in _) => cbv zeta
      end ].

Lemma quiet_set_config_value (exits writes : bool) (section opt : string)
    (value : gp_value) :
  quiet exits writes (set_config_value driver env section opt value).
Proof. unfold set_config_value, set_config_value_try. quiet_steps. Qed.

Lemma quiet_get_config_value (exits writes : bool) (section opt : string) :
  quiet exits writes (get_config_value driver section opt).
Proof. unfold get_config_value, get_config_value_try. quiet_steps. Qed.

Lemma quiet_main_try_capture (exits writes : bool) :
  quiet exits writes (main_try_capture driver env).
Proof.
  unfold main_try_capture.
  repeat first [ apply quiet_set_config_value | apply quiet_get_config_value
               | progress quiet_steps ].
Qed.

Lemma quiet_main_try_save (exits : bool) (camera_file : CameraFile) :
  quiet exits true (main_try_save driver env camera_file).
Proof. unfold main_try_save. quiet_steps. Qed.

Lemma quiet_main_try (exits : bool) : quiet exits true (main_try driver env).
Proof.
  apply quiet_bind; [apply quiet_main_try_capture|]. apply quiet_main_try_save.
Qed.

Lemma quiet_main_open : quiet true false (main_open driver env).
Proof. unfold main_open, camera_connected. quiet_steps. Qed.

End Pipeline.

Section Session.

Context {World : Type}.
Variable driver : forall A, gp_op A -> World -> reply World A.
Variable env : environment.

(** How [main] ends, spelled out: the SUCCESS line unless [error], the hook
    dropped, [camera.exit()] called, and the three report lines if that
    returned. *)
Lemma main_close_eq (error : bool) (s : state World) :
  main_close driver error s =
    let s1 := if error then s
              else with_log (Logger.write_log "SUCCESS : diagnostic completed" true) s in
    let s2 := after_call driver Camera_exit
                (State (world s1) false (calls s1) (log s1) (files s1)) in
    match r_result (driver _ Camera_exit (world s)) with
    | GpOk _ => (Return tt, with_log (write_lines report_lines) s2)
    | GpError code text => (Raise (GPhoto2Error code text), s2)
    end.
Proof.
  unfold main_close, bind, call, write_log, set_gp_log_callback, ret.
  destruct error; simpl; by destruct (r_result _) as [[]|].
Qed.

Lemma main_session_eq (operations : Z) (s : state World) :
  main_session driver env operations s
  = bind (if capture_compat operations
          then try_except (main_try driver env ;; ret false)
                          (fun _ => true)
                          (fun ex => write_log (abort_line ex) true ;; ret true)
          else ret false)
         (main_close driver)
         (flags_logged operations s).
Proof. reflexivity. Qed.

(** The guarded block always hands [main] a value for [error]. *)
Lemma main_try_guarded (s : state World) :
  try_except (main_try driver env ;; ret false)
             (fun _ => true)
             (fun ex => write_log (abort_line ex) true ;; ret true) s
  = match main_try driver env s with
    | (Return _, s1) => (Return false, s1)
    | (Raise ex, s1) =>
        (Return true, with_log (Logger.write_log (abort_line ex) true) s1)
    | (SystemExit status, s1) => (SystemExit status, s1)
    end.
Proof.
  unfold try_except, bind.
  by destruct (main_try driver env s) as [[[]|ex|status] s1].
Qed.

Lemma main_try_no_exit (s : state World) (status : Z) :
  (main_try driver env s).1 <> SystemExit status.
Proof. by apply (quiet_main_try driver env false s). Qed.

Lemma stops_call {A} (op : gp_op A) : stops_at_failure (call driver op).
Proof.
  intros s code text s1. unfold call.
  destruct (r_result (driver A op (world s))) eqn:Hcall; [done|].
  intros [= _ _ <-]. rewrite after_call_eq, Hcall. by eexists _, _.
Qed.

Lemma stops_never {A} (p : M World A) :
  (forall s code text, (p s).1 <> Raise (GPhoto2Error code text)) ->
  stops_at_failure p.
Proof. intros Hp s code text s1 H. destruct (Hp s code text). by rewrite H. Qed.

Lemma stops_bind {A B} (m : M World A) (k : A -> M World B) :
  stops_at_failure m -> (forall a, stops_at_failure (k a)) ->
  stops_at_failure (bind m k).
Proof.
  intros Hm Hk s code text s1. unfold bind.
  destruct (m s) as [[a|ex|status] s'] eqn:Hms; [apply Hk| |done].
  intros [= -> <-]. by apply (Hm s code text).
Qed.

Lemma set_config_value_returns (section opt : string) (value : gp_value)
    (s : state World) :
  exists s', set_config_value driver env section opt value s = (Return tt, s').
Proof.
  pose proof (set_config_value_try_driver_errors_only driver env section opt value s)
    as H.
  unfold set_config_value, try_except.
  destruct (set_config_value_try driver env section opt value s)
    as [[[]|[code text|text]|status] s1]; simpl in *; try done; by eexists.
Qed.

Lemma get_config_value_returns (section opt : string) (s : state World) :
  exists v s', get_config_value driver section opt s = (Return v, s').
Proof.
  pose proof (get_config_value_try_driver_errors_only driver section opt s) as H.
  unfold get_config_value, try_except.
  destruct (get_config_value_try driver section opt s)
    as [[v|[code text|text]|status] s1]; simpl in *; try done; by eexists _, _.
Qed.

Lemma stops_set_config_value (section opt : string) (value : gp_value) :
  stops_at_failure (set_config_value driver env section opt value).
Proof.
  apply stops_never. intros s code text.
  by destruct (set_config_value_returns section opt value s) as [s' ->].
Qed.

Lemma stops_get_config_value (section opt : string) :
  stops_at_failure (get_config_value driver section opt).
Proof.
  apply stops_never. intros s code text.
  by destruct (get_config_value_returns section opt s) as (v & s' & ->).
Qed.

Lemma stops_print_config (config : CameraWidget) (parent : string) :
  stops_at_failure (print_config env config parent : M World unit).
Proof. apply stops_never. intros s code text. by rewrite print_config_lines. Qed.

Ltac stops_steps :=
  repeat first
    [ apply stops_bind; [|intros ?]
    | apply stops_call
    | apply stops_set_config_value
    | apply stops_get_config_value
    | apply stops_print_config
    | apply stops_never; by intros ? ? ?
    | match goal with
      | |- stops_at_failure (if ?b then _ else _) => destruct b
      | |- stops_at_failure (match ?x with _ => _ end) => destruct x
      end ].

(** The [try] block of [main] stops at the driver call that raised. *)
Lemma main_try_stops_at_failure : stops_at_failure (main_try driver env).
Proof.
  unfold main_try, main_try_capture, main_try_save, pil. stops_steps.
Qed.

(** C7, as the code has it.  When the device can capture and the [try]
    block raises [ex], having got as far as the state [s1]: the ABORT line
    is logged under a new section rule, nothing more of the block runs (the
    one driver call after [s1] is [camera.exit()], and when [ex] is a driver
    error the last call before it is the one that failed), no SUCCESS line
    is written, no file is touched, and [main] falls off its end (status 0)
    provided [camera.exit()] itself returns; if that raises too, the error
    leaves [main] and the report lines are not written. *)
Theorem main_session_abort (operations : Z) (s s1 : state World) (ex : exn) :
  capture_compat operations = true ->
  main_try driver env (flags_logged operations s) = (Raise ex, s1) ->
  let closed := succeeded (r_result (driver _ Camera_exit (world s1))) in
  let final := main_session driver env operations s in
  calls final.2 = (calls s1 ++ [(called Camera_exit, closed)])%list
  /\ log final.2 = write_lines (if closed then report_lines else [])
                               (Logger.write_log (abort_line ex) true (log s1))
  /\ contains "ABORT" (abort_line ex) = true
  /\ files final.2 = files s1
  /\ gp_log_callback final.2 = false
  /\ exit_status final.1 = (if closed then 0 else 1)
  /\ (is_GPhoto2Error ex = true -> exists before c, calls s1 = (before ++ [(c, false)])%list).
Proof.
  intros Hcapture Htry closed final. subst closed final.
  assert (is_GPhoto2Error ex = true ->
          exists before c, calls s1 = (before ++ [(c, false)])%list) as Hstop.
  { destruct ex as [code text|]; [|done]. intros _.
    by apply (main_try_stops_at_failure _ _ _ _ Htry). }
  assert (main_session driver env operations s
          = main_close driver true
              (with_log (Logger.write_log (abort_line ex) true) s1)) as ->.
  { rewrite main_session_eq, Hcapture. unfold bind.
    by rewrite main_try_guarded, Htry. }
  rewrite main_close_eq. cbv zeta.
  change (world (with_log (Logger.write_log (abort_line ex) true) s1)) with (world s1).
  rewrite after_call_eq.
  destruct (r_result (driver () Camera_exit (world s1))) as [[]|code text] eqn:Hexit;
    simpl; by rewrite Hexit.
Qed.


Lemma main_session_closes (operations : Z) (s : state World) :
  gp_log_callback (main_session driver env operations s).2 = false
  /\ exists before closed,
       calls (main_session driver env operations s).2
       = (before ++ [(called Camera_exit, closed)])%list.
Proof.
  assert (exists error s1,
            main_session driver env operations s = main_close driver error s1)
    as (error & s1 & ->).
  { rewrite main_session_eq. unfold bind.
    destruct (capture_compat operations); [|by eexists _, _].
    rewrite main_try_guarded.
    pose proof (main_try_no_exit (flags_logged operations s)) as Hexit.
    destruct (main_try driver env (flags_logged operations s)) as [[[]|ex|status] s1];
      [by eexists _, _..|].
    by destruct (Hexit status). }
  rewrite main_close_eq. cbv zeta. rewrite after_call_eq.
  destruct (r_result _) as [[]|code text]; simpl; (split; [done|]); by eexists _, _.
Qed.

(** C1, as the code has it.  Once the session is open (the camera object
    made, [init()] and [get_abilities()] back), the close-down runs on every
    path: the hook is dropped and [camera.exit()] is the last driver call,
    whether the [try] block ran to its end, raised, or was skipped.  When
    opening the session raises, or the run stops before, that ends [main]
    on the spot and [camera.exit()] is not called. *)
Theorem main_closes_open_session (s : state World) :
  match main_open driver env s with
  | (Return operations, s1) =>
      main driver env s = main_session driver env operations s1
      /\ gp_log_callback (main driver env s).2 = false
      /\ exists before closed,
           calls (main driver env s).2 = (before ++ [(called Camera_exit, closed)])%list
  | (Raise ex, s1) =>
      main driver env s = (Raise ex, s1)
      /\ exists new, calls s1 = (calls s ++ new)%list
                     /\ Forall (fun c => call_name c <> "Camera.exit") new
  | (SystemExit status, s1) =>
      main driver env s = (SystemExit status, s1)
      /\ exists new, calls s1 = (calls s ++ new)%list
                     /\ Forall (fun c => call_name c <> "Camera.exit") new
  end.
Proof.
  destruct (quiet_main_open driver env s) as (_ & _ & Hcalls).
  unfold main, bind.
  destruct (main_open driver env s) as [[operations|ex|status] s1]; simpl in Hcalls;
    [|done..].
  split; [done|]. apply main_session_closes.
Qed.

End Session.

(** The session opens and the capture raises: the run still ends with
    status 0. *)
Lemma main_session_abort_witness :
  let opened := (main_open Sim.driver Sim.env
                   (start (Sim.dslr 9 ["Camera.capture"]) ∅)).2 in
  exit_status (main_session Sim.driver Sim.env 9 opened).1 = 0.
Proof.
  intros opened.
  destruct (main_session_abort Sim.driver Sim.env 9 opened
              (main_try Sim.driver Sim.env (flags_logged 9 opened)).2
              (GPhoto2Error (-7) "[-7] I/O problem"))
    as (_ & _ & _ & _ & _ & Hstatus & _); [by vm_compute | by vm_compute |].
  exact Hstatus.
Defined.

(** C1, as stated, fails: when [camera.init()] raises, the run has reached
    the opening of the session, the error leaves [main], [camera.exit()] is
    never called and the log hook stays registered. *)
Lemma init_failure_skips_close :
  let run := Sim.run (Sim.dslr 9 ["Camera.init"]) in
  run.1 = Raise (GPhoto2Error (-7) "[-7] I/O problem")
  /\ trace run.2 = [("gp_log_add_func", true); ("gp_camera_autodetect", true);
                     ("Camera", true); ("Camera.init", false)]
  /\ gp_log_callback run.2 = true.
Proof. by vm_compute. Qed.

(** C7, as stated, fails in its last part: the capture raises, the ABORT
    line is logged, and then [camera.exit()] raises as well; the error is
    not caught and the process ends with status 1. *)
Lemma abort_then_exit_failure_status :
  let run := Sim.run (Sim.dslr 9 ["Camera.capture"; "Camera.exit"]) in
  contains "ABORT   : exception occures" (Logger.file_text (log run.2)) = true
  /\ contains "SUCCESS" (Logger.file_text (log run.2)) = false
  /\ last (trace run.2) = Some ("Camera.exit", false)
  /\ exit_status run.1 = 1.
Proof. by vm_compute. Qed.


(** ** The preview flag *)

Lemma write_lines_replay (lines : list string) (l : Logger.t) :
  write_lines lines l = replay (map (fun text => (text, false)) lines) l.
Proof.
  revert l. induction lines as [|text lines IH]; intros l; [done|]. apply IH.
Qed.

Lemma replay_app (r1 r2 : list (string * bool)) (l : Logger.t) :
  replay (r1 ++ r2) l = replay r2 (replay r1 l).
Proof. apply foldl_app. Qed.

Lemma same_but_preview_capture (a b : Z) :
  same_but_preview a b -> capture_compat a = capture_compat b.
Proof.
  unfold same_but_preview, capture_compat. intros H. f_equal.
  assert (forall x, Z.land x GP_OPERATION_CAPTURE_IMAGE
                    = Z.land (Z.lor x GP_OPERATION_CAPTURE_PREVIEW)
                             GP_OPERATION_CAPTURE_IMAGE) as Hbit.
  { intros x. rewrite Z.land_lor_distr_l.
    change (Z.land GP_OPERATION_CAPTURE_PREVIEW GP_OPERATION_CAPTURE_IMAGE) with 0.
    by rewrite Z.lor_0_r. }
  by rewrite (Hbit a), (Hbit b), H.
Qed.

Section Twins.

Context {World : Type}.
Variable driver : forall A, gp_op A -> World -> reply World A.
Variable env : environment.
Variable R : World -> World -> Prop.
Hypothesis paired : twin_devices driver R.

(** Both runs log the same records. *)
Lemma twin_states_log (base1 base2 : Logger.t) (s1 s2 : state World)
    (records : list (string * bool)) :
  twin_states R base1 base2 s1 s2 ->
  twin_states R base1 base2 (with_log (replay records) s1) (with_log (replay records) s2).
Proof.
  intros (Hw & Hcb & Hc & Hf & old & H1 & H2).
  repeat split; try done.
  exists (old ++ records)%list. simpl. by rewrite !replay_app, H1, H2.
Qed.

Lemma twin_logging {A} (RA : A -> A -> Prop) (base1 base2 : Logger.t) (a : A)
    (records : list (string * bool)) :
  RA a a ->
  twin R RA base1 base2 (fun s => (Return a, with_log (replay records) s))
                        (fun s => (Return a, with_log (replay records) s)).
Proof. intros Ha s1 s2 H. split; [done|]. by apply twin_states_log. Qed.

Lemma twin_same {A} (RA : A -> A -> Prop) (base1 base2 : Logger.t)
    (p : M World A) (o : outcome A) :
  (forall s, p s = (o, s)) -> twin_outcomes RA o o ->
  twin R RA base1 base2 p p.
Proof. intros Hp Ho s1 s2 H. by rewrite !Hp. Qed.

Lemma twin_ret {A} (RA : A -> A -> Prop) (base1 base2 : Logger.t) (a : A) :
  RA a a -> twin R RA base1 base2 (ret a) (ret a).
Proof. intros Ha. by apply (twin_same _ _ _ _ (Return a)). Qed.

Lemma twin_raise {A} (RA : A -> A -> Prop) (base1 base2 : Logger.t) (ex : exn) :
  twin R RA base1 base2 (raise ex) (raise ex).
Proof. by apply (twin_same _ _ _ _ (Raise ex)). Qed.

Lemma twin_sys_exit {A} (RA : A -> A -> Prop) (base1 base2 : Logger.t) (status : Z) :
  twin R RA base1 base2 (sys_exit status) (sys_exit status).
Proof. by apply (twin_same _ _ _ _ (SystemExit status)). Qed.

Lemma twin_pil {A} (base1 base2 : Logger.t) (r : string + A) :
  twin R eq base1 base2 (pil r) (pil r).
Proof. destruct r; [apply twin_raise | by apply twin_ret]. Qed.

Lemma twin_write_log (base1 base2 : Logger.t) (text : string) (new_section : bool) :
  twin R eq base1 base2 (write_log text new_section) (write_log text new_section).
Proof. by apply (twin_logging eq _ _ tt [(text, new_section)]). Qed.

Lemma twin_set_gp_log_callback (base1 base2 : Logger.t) (alive : bool) :
  twin R eq base1 base2 (set_gp_log_callback alive) (set_gp_log_callback alive).
Proof. intros s1 s2 (Hw & Hcb & Hc & Hf & Hl). by repeat split. Qed.

Lemma twin_write_file (base1 base2 : Logger.t) (path : string)
    (data : list Byte.byte) :
  twin R eq base1 base2 (write_file path data) (write_file path data).
Proof.
  intros s1 s2 (Hw & Hcb & Hc & Hf & Hl). repeat split; try done.
  simpl. by rewrite Hf.
Qed.

Lemma twin_after_call {A} (base1 base2 : Logger.t) (op : gp_op A)
    (s1 s2 : state World) :
  twin_states R base1 base2 s1 s2 ->
  succeeded (r_result (driver A op (world s1)))
  = succeeded (r_result (driver A op (world s2))) ->
  twin_states R base1 base2 (after_call driver op s1) (after_call driver op s2).
Proof.
  intros (Hw & Hcb & Hc & Hf & old & H1 & H2) Hok.
  destruct (paired A op _ _ Hw) as (Hm & _ & Hw').
  rewrite !after_call_eq, Hm, Hcb, Hc, Hok, !write_lines_replay.
  split; [done|]. split; [done|]. split; [done|]. split; [done|]. simpl.
  exists (old ++ map (fun text => (text, false))
                   (if gp_log_callback s2
                    then map gp_line (r_messages (driver A op (world s2)))
                    else []))%list.
  by rewrite !replay_app, H1, H2.
Qed.

(** A call other than the one for the abilities. *)
Lemma twin_call {A} (base1 base2 : Logger.t) (op : gp_op A) :
  (forall x y, answers_agree op x y -> x = y) ->
  twin R eq base1 base2 (call driver op) (call driver op).
Proof.
  intros Hop s1 s2 H. pose proof H as (Hw & _).
  destruct (paired A op _ _ Hw) as (_ & Ha%Hop & _).
  pose proof (twin_after_call base1 base2 op s1 s2 H) as Hafter.
  unfold call. rewrite Ha in *.
  destruct (r_result (driver A op (world s2))); simpl; split; auto.
Qed.

Lemma twin_call_abilities (base1 base2 : Logger.t) :
  twin R same_but_preview base1 base2
       (call driver Camera_get_abilities) (call driver Camera_get_abilities).
Proof.
  intros s1 s2 H. pose proof H as (Hw & _).
  destruct (paired _ Camera_get_abilities _ _ Hw) as (_ & Ha & _).
  pose proof (twin_after_call base1 base2 Camera_get_abilities s1 s2 H) as Hafter.
  unfold call. simpl in Ha.
  destruct (r_result (driver Z Camera_get_abilities (world s1))),
           (r_result (driver Z Camera_get_abilities (world s2)));
    try done; simpl; split; auto.
  destruct Ha as [-> ->]. done.
Qed.

Lemma twin_bind {A B} (RB : B -> B -> Prop) (base1 base2 : Logger.t)
    (m : M World A) (k1 k2 : A -> M World B) :
  twin R eq base1 base2 m m ->
  (forall a, twin R RB base1 base2 (k1 a) (k2 a)) ->
  twin R RB base1 base2 (bind m k1) (bind m k2).
Proof.
  intros Hm Hk s1 s2 H. unfold bind. destruct (Hm s1 s2 H) as [Ho Hs].
  destruct (m s1) as [[a|ex|status] s1'], (m s2) as [[a'|ex'|status'] s2'];
    simpl in Ho; try done.
  subst a'. by apply Hk.
Qed.

Lemma twin_try_except {A} (RA : A -> A -> Prop) (base1 base2 : Logger.t)
    (body : M World A) (catches : exn -> bool) (handler : exn -> M World A) :
  twin R RA base1 base2 body body ->
  (forall ex, twin R RA base1 base2 (handler ex) (handler ex)) ->
  twin R RA base1 base2 (try_except body catches handler)
                        (try_except body catches handler).
Proof.
  intros Hb Hh s1 s2 H. unfold try_except. destruct (Hb s1 s2 H) as [Ho Hs].
  destruct (body s1) as [[a|ex|status] s1'], (body s2) as [[a'|ex'|status'] s2'];
    simpl in Ho; try done.
  subst ex'. destruct (catches ex); [by apply Hh|done].
Qed.

Lemma twin_for_each {A} (base1 base2 : Logger.t) (body : A -> M World unit)
    (l : list A) :
  (forall x, twin R eq base1 base2 (body x) (body x)) ->
  twin R eq base1 base2 (for_each body l) (for_each body l).
Proof.
  intros Hbody. induction l as [|x l IH].
  - by apply twin_ret.
  - apply (twin_bind eq _ _ (body x) (fun _ => for_each body l)
                     (fun _ => for_each body l)); [apply Hbody|done].
Qed.

Lemma twin_print_config (base1 base2 : Logger.t) (config : CameraWidget)
    (parent : string) :
  twin R eq base1 base2 (print_config env config parent) (print_config env config parent).
Proof.
  intros s1 s2 H. rewrite !print_config_lines.
  unfold with_log. rewrite !write_lines_replay.
  by apply (twin_logging eq _ _ tt).
Qed.

Ltac twin_steps :=
  repeat first
    [ apply twin_bind; [|intros ?]
    | apply twin_try_except; [|intros ?]
    | apply twin_for_each; intros ?
    | apply twin_call; by intros ? ? ?
    | apply twin_call_abilities
    | apply twin_write_log
    | apply twin_ret; reflexivity
    | apply twin_sys_exit
    | apply twin_raise
    | apply twin_pil
    | apply twin_write_file
    | apply twin_set_gp_log_callback
    | apply twin_print_config
    | match goal with
      | |- twin _ _ _ _ (if ?b then _ else _) _ => destruct b
      | |- twin _ _ _ _ (match ?x with _ => _ end) _ => destruct x
      | |- twin _ _ _ _ (let _ := _ in _) _ => cbv zeta
      end ].

Lemma twin_set_config_value (base1 base2 : Logger.t) (section opt : string)
    (value : gp_value) :
  twin R eq base1 base2 (set_config_value driver env section opt value)
                        (set_config_value driver env section opt value).
Proof. unfold set_config_value, set_config_value_try. twin_steps. Qed.

Lemma twin_get_config_value (base1 base2 : Logger.t) (section opt : string) :
  twin R eq base1 base2 (get_config_value driver section opt)
                        (get_config_value driver section opt).
Proof. unfold get_config_value, get_config_value_try. twin_steps. Qed.

Lemma twin_main_try (base1 base2 : Logger.t) :
  twin R eq base1 base2 (main_try driver env) (main_try driver env).
Proof.
  unfold main_try, main_try_capture, main_try_save.
  repeat first [ apply twin_set_config_value | apply twin_get_config_value
               | progress twin_steps ].
Qed.

Lemma twin_main_close (base1 base2 : Logger.t) (error : bool) :
  twin R eq base1 base2 (main_close driver error) (main_close driver error).
Proof. unfold main_close. twin_steps. Qed.

Lemma twin_main_open (base1 base2 : Logger.t) :
  twin R same_but_preview base1 base2 (main_open driver env) (main_open driver env).
Proof. unfold main_open, camera_connected. twin_steps. Qed.

Lemma twin_outcomes_eq {A} (o1 o2 : outcome A) : twin_outcomes eq o1 o2 -> o1 = o2.
Proof. destruct o1, o2; simpl; by intros; subst. Qed.

(** From the open session on, the first thing logged is the preview line;
    after it both runs go on alike. *)
Lemma twin_main_session (base : Logger.t) (a b : Z) (s1 s2 : state World) :
  same_but_preview a b ->
  twin_states R base base s1 s2 ->
  (main_session driver env a s1).1 = (main_session driver env b s2).1
  /\ twin_states R
       (Logger.write_log (preview_line (preview_compat a)) false (log s1))
       (Logger.write_log (preview_line (preview_compat b)) false (log s2))
       (main_session driver env a s1).2 (main_session driver env b s2).2.
Proof.
  intros Hab (Hw & Hcb & Hc & Hf & _).
  pose (rest := fun cc : bool =>
          (write_log (capture_line cc) false ;;
           error <- (if cc then
                       try_except
                         (main_try driver env ;; ret false)
                         (fun _ => true)
                         (fun ex => write_log (abort_line ex) true ;; ret true)
                     else ret false) ;;
           main_close driver error) : M World unit).
  assert (forall x s,
            main_session driver env x s
            = rest (capture_compat x)
                   (with_log (Logger.write_log (preview_line (preview_compat x)) false) s))
    as Hrest by done.
  rewrite !Hrest, (same_but_preview_capture a b Hab).
  set (b1 := Logger.write_log (preview_line (preview_compat a)) false (log s1)).
  set (b2 := Logger.write_log (preview_line (preview_compat b)) false (log s2)).
  assert (twin R eq b1 b2 (rest (capture_compat b)) (rest (capture_compat b))) as Htwin.
  { unfold rest.
    repeat first [ apply twin_main_try | apply twin_main_close | progress twin_steps ]. }
  edestruct Htwin as [Ho Hs]; [|split; [apply twin_outcomes_eq, Ho | exact Hs]].
  repeat split; try done. by exists [].
Qed.


End Twins.



(** The preview is attempted on the camera that does not announce it. *)
Example preview_attempted_without_flag :
  preview_compat 1 = false
  /\ ("Camera.capture_preview", true) ∈ trace (Sim.run (Sim.dslr 1 [])).2
  /\ contains "* Preview compatible: False"
              (Logger.file_text (log (Sim.run (Sim.dslr 1 [])).2)) = true.
Proof.
  split; [done|]. split; [apply (bool_decide_unpack _)|]; by vm_compute.
Qed.

(** * Further properties *)

(** ** The log over many writes *)

Lemma write_log_file (text : string) (new_section : bool) (l : Logger.t) :
  Logger.LOGFILE (Logger.write_log text new_section l)
  = Some (Logger.file_text l +:+ record_text (text, new_section)).
Proof.
  destruct l as [out file]. unfold Logger.write_log, Logger.file_text, record_text.
  destruct new_section, (200 <? String.length text)%nat, file; simpl;
    rewrite ?append_assoc; reflexivity.
Qed.

Lemma write_log_stdout_short (text : string) (new_section : bool) (l : Logger.t) :
  (String.length text <= 200)%nat ->
  Logger.stdout (Logger.write_log text new_section l)
  = Logger.stdout l +:+ record_text (text, new_section).
Proof.
  intros Hshort. destruct l as [out file].
  unfold Logger.write_log, record_text.
  assert ((200 <? String.length text)%nat = false) as -> by (apply Nat.ltb_ge; lia).
  rewrite (slice_to_all 200 text Hshort).
  destruct new_section, file; simpl; rewrite ?append_assoc; reflexivity.
Qed.

Lemma replay_file (records : list (string * bool)) (l : Logger.t) :
  Logger.file_text (replay records l) = Logger.file_text l +:+ records_text records.
Proof.
  revert l. induction records as [|[text new_section] records IH]; intros l.
  - simpl. by rewrite append_nil_r.
  - change (replay ((text, new_section) :: records) l)
      with (replay records (Logger.write_log text new_section l)).
    rewrite IH. unfold Logger.file_text at 1. rewrite write_log_file. simpl.
    by rewrite append_assoc.
Qed.

Lemma replay_stays_open (records : list (string * bool)) (l : Logger.t) :
  is_Some (Logger.LOGFILE l) -> is_Some (Logger.LOGFILE (replay records l)).
Proof.
  revert l. induction records as [|[text new_section] records IH]; intros l Hl;
    [done|].
  apply IH. by rewrite write_log_file.
Qed.

Lemma replay_file_open (r : string * bool) (records : list (string * bool))
    (l : Logger.t) :
  is_Some (Logger.LOGFILE (replay (r :: records) l)).
Proof.
  destruct r as [text new_section].
  apply (replay_stays_open records). by rewrite write_log_file.
Qed.

(** X1.  Whatever is written with [write_log], in whatever number of calls,
    the log file holds what it held before followed by the records in the
    order of the calls, each in full; and after the first call the file is
    open. *)
Theorem log_file_in_order (r : string * bool) (records : list (string * bool))
    (l : Logger.t) :
  Logger.LOGFILE (replay (r :: records) l)
  = Some (Logger.file_text l +:+ records_text (r :: records)).
Proof.
  destruct (replay_file_open r records l) as [written Hopen].
  pose proof (replay_file (r :: records) l) as Htext.
  unfold Logger.file_text at 1 in Htext. rewrite Hopen in Htext. simpl in Htext.
  by rewrite Hopen, Htext.
Qed.

Lemma replay_stdout_short (records : list (string * bool)) (l : Logger.t) :
  Forall (fun r => (String.length r.1 <= 200)%nat) records ->
  Logger.stdout (replay records l) = Logger.stdout l +:+ records_text records.
Proof.
  intros Hshort. revert l.
  induction Hshort as [|[text new_section] records Hr _ IH]; intros l.
  - simpl. by rewrite append_nil_r.
  - change (replay ((text, new_section) :: records) l)
      with (replay records (Logger.write_log text new_section l)).
    rewrite IH, write_log_stdout_short by done. simpl. by rewrite append_assoc.
Qed.

(** X2.  As long as no text is longer than 200 characters, the console and
    the log file receive the same characters: rules, texts and newlines. *)
Theorem console_mirrors_file (records : list (string * bool)) (l : Logger.t) :
  Forall (fun r => (String.length r.1 <= 200)%nat) records ->
  Logger.stdout (replay records l) = Logger.stdout l +:+ records_text records
  /\ Logger.file_text (replay records l) = Logger.file_text l +:+ records_text records.
Proof.
  intros Hshort. split; [by apply replay_stdout_short | apply replay_file].
Qed.

Lemma console_mirrors_file_witness :
  Logger.stdout (replay [("Take a capture", false); ("SUCCESS", true)] Logger.initial)
  = Logger.file_text
      (replay [("Take a capture", false); ("SUCCESS", true)] Logger.initial).
Proof.
  destruct (console_mirrors_file [("Take a capture", false); ("SUCCESS", true)]
              Logger.initial) as [Hout Hfile].
  - repeat constructor; simpl; lia.
  - rewrite Hout, Hfile. reflexivity.
Defined.

(** ** The numbered list of cameras *)





(** ** The two ways [main] gives up before a session *)

Section GivingUp.

Context {World : Type}.
Variable driver : forall A, gp_op A -> World -> reply World A.
Variable env : environment.

Lemma for_each_write_log {A} (line : A -> string) (l : list A) (s : state World) :
  for_each (fun x => write_log (line x) false) l s
  = (Return tt, with_log (write_lines (map line l)) s).
Proof.
  revert s. induction l as [|x l IH]; intros s.
  - by rewrite with_log_no_lines.
  - change (for_each (fun x => write_log (line x) false) (x :: l) s)
      with (for_each (fun x => write_log (line x) false) l
              (with_log (Logger.write_log (line x) false) s)).
    by rewrite IH.
Qed.

(** X4.  Without gphoto2, [main] logs its two header lines and the line
    saying so, and leaves with [sys.exit(1)]: no driver call is made and no
    file is written. *)
Theorem main_without_gphoto (s : state World) :
  gp_installed env = false ->
  main driver env s
  = (SystemExit 1,
     with_log (write_lines
                 [ "Pibooth version installed: " +:+ pibooth_version env;
                   "Installed plugins: " +:+ Py.join ", " (external_plugins env);
                   "gPhoto2 not installed, cannot diagnose connected DSLR" ]) s)
  /\ exit_status (main driver env s).1 = 1
  /\ calls (main driver env s).2 = calls s
  /\ files (main driver env s).2 = files s.
Proof.
  intros Hgp.
  assert (main driver env s
          = (SystemExit 1,
             with_log (write_lines
                         [ "Pibooth version installed: " +:+ pibooth_version env;
                           "Installed plugins: "
                           +:+ Py.join ", " (external_plugins env);
                           "gPhoto2 not installed, cannot diagnose connected DSLR" ]) s))
    as ->; [|done].
  unfold main, main_open, bind. simpl. by rewrite Hgp.
Qed.

(** The header of [main], up to the registration of the log function. *)
Lemma main_open_header (s : state World) :
  gp_installed env = true ->
  (write_log ("Pibooth version installed: " +:+ pibooth_version env) false ;;
   write_log ("Installed plugins: " +:+ Py.join ", " (external_plugins env)) false ;;
   (if negb (gp_installed env) then
      write_log "gPhoto2 not installed, cannot diagnose connected DSLR" false ;;
      sys_exit 1
    else
      match gp_library_version env with
      | Some (version :: options) =>
          write_log ("GPhoto2 version installed: " +:+ version) false ;;
          for_each (fun opt => write_log ("  - " +:+ opt) false) options
      | _ => ret tt
      end)) s
  = (Return tt, with_log (write_lines (header_lines env)) s).
Proof.
  intros Hgp. unfold header_lines. rewrite Hgp. simpl negb. cbv iota.
  unfold bind at 1 2. unfold write_log at 1 2. cbv beta iota.
  destruct (gp_library_version env) as [[|version options]|]; [done| |done].
  unfold bind, write_log at 1. cbv beta iota.
  rewrite for_each_write_log. unfold with_log. simpl. f_equal.
Qed.

(** X5.  When the detection finds no camera, [main] logs
    "No compatible DSLR camera detected" and leaves with [sys.exit(1)];
    no camera object is made after the detection, and no file is written. *)
Theorem main_nothing_listed (s s2 : state World) :
  gp_installed env = true ->
  r_result (driver _ gp_log_add_func (world s)) = GpOk tt ->
  camera_connected driver env (listing driver env s) = (Return [], s2) ->
  main driver env s
  = (SystemExit 1,
     with_log (Logger.write_log "No compatible DSLR camera detected" false) s2)
  /\ exit_status (main driver env s).1 = 1
  /\ calls (main driver env s).2 = calls s2
  /\ files (main driver env s).2 = files s.
Proof.
  intros Hgp Hhook Hlist.
  assert (files s2 = files s) as Hfiles.
  { assert (quiet true false (camera_connected driver env)) as Hq.
    { unfold camera_connected.
      repeat first [ apply quiet_bind; [|intros ?]
                   | apply quiet_call; discriminate
                   | match goal with
                     | |- quiet _ _ (if ?b then _ else _) => destruct b
                     end ]. }
    destruct (Hq (listing driver env s)) as (_ & Hf & _).
    rewrite Hlist in Hf. simpl in Hf. rewrite Hf by done.
    unfold listing. simpl. by rewrite after_call_eq. }
  assert (main driver env s
          = (SystemExit 1,
             with_log (Logger.write_log "No compatible DSLR camera detected" false) s2))
    as ->; [|done].
  unfold main. unfold bind at 1.
  assert (main_open driver env s
          = (SystemExit 1,
             with_log (Logger.write_log "No compatible DSLR camera detected" false) s2))
    as ->; [|done].
  unfold main_open.
  rewrite <- !bind_assoc.
  unfold bind at 1. unfold bind at 1. unfold bind at 1. unfold bind at 1.
  unfold bind at 1.
  rewrite !bind_assoc, main_open_header by done.
  unfold call. cbn [world with_log]. rewrite Hhook.
  unfold set_gp_log_callback, write_log at 1. cbv beta iota.
  change (camera_connected driver env _) with
    (camera_connected driver env (listing driver env s)).
  rewrite Hlist. reflexivity.
Qed.

End GivingUp.

Lemma main_without_gphoto_witness :
  exit_status (main Sim.driver no_gphoto (start (Sim.dslr 9 []) ∅)).1 = 1.
Proof.
  destruct (main_without_gphoto Sim.driver no_gphoto (start (Sim.dslr 9 []) ∅))
    as (_ & Hstatus & _); [reflexivity | exact Hstatus].
Defined.

Lemma main_nothing_listed_witness :
  exit_status (main Sim.driver Sim.env (start nothing_listed ∅)).1 = 1.
Proof.
  destruct (main_nothing_listed Sim.driver Sim.env (start nothing_listed ∅)
              (camera_connected Sim.driver Sim.env
                 (listing Sim.driver Sim.env (start nothing_listed ∅))).2)
    as (_ & Hstatus & _); [reflexivity | reflexivity | by vm_compute | exact Hstatus].
Defined.

(** ** Call by call *)

Section CallByCall.

Context {World : Type}.
Variable driver : forall A, gp_op A -> World -> reply World A.
Variable env : environment.







End CallByCall.

(** ** A value that needs no warning *)

(** X9.  When the node resolved by [set_config_value] is not a radio, or is
    a radio that lists the value among its choices, no invalid-value line is
    logged: the write starts in the very state the resolution left. *)
Theorem set_config_value_accepted {World}
    (driver : forall A, gp_op A -> World -> reply World A) (env : environment)
    (section opt : string) (value : gp_value) (s s1 : state World)
    (config child : CameraWidget) :
  resolve driver section opt
    (with_log (Logger.write_log (setting_line section opt value) false) s)
  = (Return (config, child), s1) ->
  get_type child <> GP_WIDGET_RADIO \/ value_in value (get_choices child) = true ->
  set_config_value driver env section opt value s
  = try_except
      (call driver (Widget_set_value child value) ;;
       call driver (Camera_set_config config))
      is_GPhoto2Error
      (fun _ => write_log (unsupported_line section opt value) false) s1.
Proof.
  intros Hres Hok. unfold set_config_value, try_except.
  rewrite set_config_value_try_eq. unfold bind at 1. rewrite Hres. simpl fst; simpl snd.
  destruct (decide (get_type child = GP_WIDGET_RADIO)) as [Hradio|Hother].
  - destruct Hok as [Hno|Hin]; [done|]. simpl default. rewrite Hin.
    by rewrite andb_false_r.
  - done.
Qed.

Lemma set_config_value_accepted_witness :
  contains "invalid value"
    (Logger.file_text
       (log (set_config_value Sim.driver Sim.env "imgsettings" "iso" (VStr "100")
               (start (Sim.dslr 9 []) ∅)).2)) = false.
Proof.
  pose proof (set_config_value_accepted Sim.driver Sim.env "imgsettings" "iso"
                (VStr "100") (start (Sim.dslr 9 []) ∅) _ _ _
                eq_refl (or_intror eq_refl)) as Hrun.
  rewrite Hrun. reflexivity.
Defined.

(** ** How a session ends *)

Section Outcomes.

Context {World : Type}.
Variable driver : forall A, gp_op A -> World -> reply World A.
Variable env : environment.

(** X10.  On a device that cannot capture, nothing of the [try] block runs:
    after the two capability lines, the SUCCESS line is logged, the one
    driver call made is [camera.exit()], no file is written, and the status
    is 0 when that call returns. *)
Theorem main_session_skips (operations : Z) (s : state World) :
  capture_compat operations = false ->
  let closed := succeeded (r_result (driver _ Camera_exit (world s))) in
  let final := main_session driver env operations s in
  calls final.2 = (calls s ++ [(called Camera_exit, closed)])%list
  /\ files final.2 = files s
  /\ log final.2
     = write_lines (if closed then report_lines else [])
         (Logger.write_log "SUCCESS : diagnostic completed" true
            (log (flags_logged operations s)))
  /\ exit_status final.1 = (if closed then 0 else 1).
Proof.
  intros Hcapture closed final. subst closed final.
  assert (main_session driver env operations s
          = main_close driver false (flags_logged operations s)) as ->.
  { rewrite main_session_eq, Hcapture. reflexivity. }
  rewrite main_close_eq. cbv zeta.
  change (world (flags_logged operations s)) with (world s).
  rewrite after_call_eq.
  destruct (r_result (driver () Camera_exit (world s))) as [[]|code text] eqn:Hexit;
    simpl; by rewrite Hexit.
Qed.



End Outcomes.

Lemma main_session_skips_witness :
  exit_status (main_session Sim.driver Sim.env 8 (start (Sim.dslr 8 []) ∅)).1 = 0.
Proof.
  destruct (main_session_skips Sim.driver Sim.env 8 (start (Sim.dslr 8 []) ∅))
    as (_ & _ & _ & Hstatus); [reflexivity | exact Hstatus].
Defined.


(** ** How [main] can end *)

Section Endings.

Context {World : Type}.
Variable driver : forall A, gp_op A -> World -> reply World A.
Variable env : environment.

Lemma tame_returns {A} (p : M World A) :
  (forall s, exists a, (p s).1 = Return a) -> tame p.
Proof. intros Hp s. destruct (Hp s) as [a ->]. done. Qed.

Lemma tame_write_log (text : string) (new_section : bool) :
  tame (write_log text new_section : M World unit).
Proof. apply tame_returns. by eexists. Qed.

Lemma tame_ret {A} (a : A) : tame (ret a : M World A).
Proof. apply tame_returns. by eexists. Qed.

Lemma tame_set_gp_log_callback (alive : bool) :
  tame (set_gp_log_callback alive : M World unit).
Proof. apply tame_returns. by eexists. Qed.

Lemma tame_sys_exit_1 {A} : tame (sys_exit 1 : M World A).
Proof. by intros s. Qed.

Lemma tame_call {A} (op : gp_op A) : tame (call driver op).
Proof. intros s. unfold call. by destruct (r_result _). Qed.

Lemma tame_bind {A B} (m : M World A) (k : A -> M World B) :
  tame m -> (forall a, tame (k a)) -> tame (bind m k).
Proof.
  intros Hm Hk s. unfold bind. specialize (Hm s).
  destruct (m s) as [[a|[code text|text]|status] s1]; try done. apply Hk.
Qed.

Lemma tame_for_each {A} (body : A -> M World unit) (l : list A) :
  (forall x, tame (body x)) -> tame (for_each body l).
Proof.
  intros Hbody. induction l as [|x l IH]; [apply tame_ret|].
  apply (tame_bind (body x) (fun _ => for_each body l)); [apply Hbody|done].
Qed.

Ltac tame_steps :=
  repeat first
    [ apply tame_bind; [|intros ?]
    | apply tame_for_each; intros ?
    | apply tame_call
    | apply tame_write_log
    | apply tame_ret
    | apply tame_sys_exit_1
    | apply tame_set_gp_log_callback
    | match goal with
      | |- tame (if ?b then _ else _) => destruct b
      | |- tame (match ?x with _ => _ end) => destruct x
      | |- tame (let _ := _ in _) => cbv zeta
      end ].

Lemma tame_main_open : tame (main_open driver env).
Proof. unfold main_open, camera_connected. tame_steps. Qed.

(** Whatever happens in the [try] block, [main] goes on to its last part. *)
Lemma main_session_reaches_close (operations : Z) (s : state World) :
  exists error s1,
    main_session driver env operations s = main_close driver error s1.
Proof.
  rewrite main_session_eq. unfold bind at 1.
  destruct (capture_compat operations); [|by eexists _, _].
  rewrite main_try_guarded.
  pose proof (main_try_no_exit driver env (flags_logged operations s)) as Hexit.
  destruct (main_try driver env (flags_logged operations s)) as [[[]|ex|status] s1];
    [by eexists _, _..|].
  by destruct (Hexit status).
Qed.

Lemma tame_main_session (operations : Z) : tame (main_session driver env operations).
Proof.
  intros s. destruct (main_session_reaches_close operations s) as (error & s1 & ->).
  rewrite main_close_eq. cbv zeta. by destruct (r_result _) as [[]|code text].
Qed.

Lemma tame_main : tame (main driver env).
Proof. apply tame_bind; [apply tame_main_open | apply tame_main_session]. Qed.

(** X12.  [main] calls [sys.exit] with no status but 1, and only before a
    session is closed down: when it does, no file has been written and
    [camera.exit()] has not been called. *)
Theorem main_exit_status (s : state World) (status : Z) :
  (main driver env s).1 = SystemExit status ->
  status = 1
  /\ files (main driver env s).2 = files s
  /\ exists new, calls (main driver env s).2 = (calls s ++ new)%list
                 /\ Forall (fun c => call_name c <> "Camera.exit") new.
Proof.
  intros Hexit. pose proof (tame_main s) as Htame. rewrite Hexit in Htame.
  split; [done|]. revert Hexit. unfold main, bind.
  destruct (quiet_main_open driver env s) as (_ & Hfiles & Hcalls).
  destruct (main_open driver env s) as [[operations|ex|exited] s1]; simpl in *.
  - intros Hexit.
    destruct (main_session_reaches_close operations s1) as (error & s2 & Hclose).
    rewrite Hclose, main_close_eq in Hexit. cbv zeta in Hexit.
    by destruct (r_result _) as [[]|code text].
  - done.
  - intros _. split; [by apply Hfiles|done].
Qed.


End Endings.

Lemma main_exit_status_witness :
  files (main Sim.driver Sim.env (start nothing_listed ∅)).2 = ∅.
Proof.
  destruct (main_exit_status Sim.driver Sim.env (start nothing_listed ∅) 1)
    as (_ & Hfiles & _); [by vm_compute | exact Hfiles].
Defined.


(** ** The log of a whole run *)

Lemma twin_devices_same {World} (driver : forall A, gp_op A -> World -> reply World A) :
  twin_devices driver eq.
Proof.
  intros A op w1 w2 <-. split; [done|]. split; [|done].
  destruct op; simpl; try done.
  by destruct (r_result _).
Qed.

(** X14.  A run of [main] only ever adds to the log, and only through
    [write_log]: whatever the driver does, the log at the end is the log at
    the start followed by a sequence of records, and the text of the file is
    the old text followed by theirs. *)
Theorem main_appends_to_log {World}
    (driver : forall A, gp_op A -> World -> reply World A) (env : environment)
    (s : state World) :
  exists records,
    log (main driver env s).2 = replay records (log s)
    /\ Logger.file_text (log (main driver env s).2)
       = Logger.file_text (log s) +:+ records_text records.
Proof.
  assert (exists records, log (main driver env s).2 = replay records (log s))
    as [records Hlog].
  { pose proof (twin_devices_same driver) as Hsame.
    assert (twin_states eq (log s) (log s) s s) as Hstart.
    { repeat split; try done. by exists []. }
    destruct (twin_main_open driver env eq Hsame (log s) (log s) s s Hstart)
      as [Ho Hs].
    unfold main, bind.
    destruct (main_open driver env s) as [[operations|ex|status] s1];
      simpl in Ho, Hs.
    - destruct (twin_main_session driver env eq Hsame (log s) operations operations
                  s1 s1 Ho Hs) as (_ & _ & _ & _ & _ & after & Hafter & _).
      destruct Hs as (_ & _ & _ & _ & before & Hbefore & _).
      exists (before ++ (preview_line (preview_compat operations), false) :: after)%list.
      rewrite Hafter, Hbefore, replay_app. done.
    - destruct Hs as (_ & _ & _ & _ & records & Hrecords & _). by exists records.
    - destruct Hs as (_ & _ & _ & _ & records & Hrecords & _). by exists records. }
  exists records. split; [done|]. rewrite Hlog. apply replay_file.
Qed.

(** ** Preview before capture *)

Lemma split_after_prefix {A} (l1 l2 k1 k2 : list A) (x : A) :
  (l1 ++ l2 = k1 ++ x :: k2)%list -> x ∉ l1 ->
  exists k', k1 = (l1 ++ k')%list /\ l2 = (k' ++ x :: k2)%list.
Proof.
  revert k1. induction l1 as [|y l1 IH]; intros k1 Heq Hx.
  - by exists k1.
  - destruct k1 as [|z k1]; simpl in Heq; injection Heq as Hhead Htail; subst.
    + destruct Hx. by left.
    + destruct (IH k1) as (k' & -> & ->); [done| |by exists k'].
      intros Hin. apply Hx. by right.
Qed.

Lemma split_before_suffix {A} (l1 l2 k1 k2 : list A) (x : A) :
  (l1 ++ l2 = k1 ++ x :: k2)%list -> x ∉ l2 ->
  exists k', l1 = (k1 ++ x :: k')%list /\ k2 = (k' ++ l2)%list.
Proof.
  revert k1. induction l1 as [|y l1 IH]; intros k1 Heq Hx.
  - simpl in Heq. subst l2. set_solver.
  - destruct k1 as [|z k1]; simpl in Heq; injection Heq as Hhead Htail; subst.
    + by exists l1.
    + destruct (IH k1) as (k' & -> & ->); [done..|]. by exists k'.
Qed.

Section Order.

Context {World : Type}.
Variable driver : forall A, gp_op A -> World -> reply World A.
Variable env : environment.

Lemma avoids_here {A} (name : string) (p : M World A) :
  (forall s, calls (p s).2 = calls s) -> avoids name p.
Proof. intros Hp s. exists []. by rewrite app_nil_r. Qed.

Lemma avoids_call {A} (name : string) (op : gp_op A) :
  op_name op <> name -> avoids name (call driver op).
Proof.
  intros Hop s. exists [(called op, succeeded (r_result (driver A op (world s))))].
  split; [|by constructor].
  unfold call. destruct (r_result _) eqn:Hcall; simpl; by rewrite after_call_eq, Hcall.
Qed.

Lemma avoids_bind {A B} (name : string) (m : M World A) (k : A -> M World B) :
  avoids name m -> (forall a, avoids name (k a)) -> avoids name (bind m k).
Proof.
  intros Hm Hk s. unfold bind. destruct (Hm s) as (new & Hc & Hnew).
  destruct (m s) as [[a|ex|status] s1]; simpl in *; [|by exists new..].
  destruct (Hk a s1) as (new' & Hc' & Hnew').
  exists (new ++ new')%list. split; [by rewrite Hc', Hc, app_assoc|].
  by apply Forall_app.
Qed.

Lemma avoids_try_except {A} (name : string) (body : M World A)
    (catches : exn -> bool) (handler : exn -> M World A) :
  avoids name body -> (forall ex, avoids name (handler ex)) ->
  avoids name (try_except body catches handler).
Proof.
  intros Hb Hh s. unfold try_except. destruct (Hb s) as (new & Hc & Hnew).
  destruct (body s) as [[a|ex|status] s1]; simpl in *; [by exists new| |by exists new].
  destruct (catches ex); [|by exists new].
  destruct (Hh ex s1) as (new' & Hc' & Hnew').
  exists (new ++ new')%list. split; [by rewrite Hc', Hc, app_assoc|].
  by apply Forall_app.
Qed.

Ltac avoids_steps :=
  repeat first
    [ apply avoids_bind; [|intros ?]
    | apply avoids_try_except; [|intros ?]
    | apply avoids_call; discriminate
    | apply avoids_here; intros ?; rewrite ?print_config_lines; reflexivity
    | match goal with
      | |- avoids _ (if ?b then _ else _) => destruct b
      | |- avoids _ (match ?x with _ => _ end) => destruct x
      | |- avoids _ (let _ := _ in _) => cbv zeta
      end ].

(** Neither accessor captures; the empty name stands for no call at all. *)
Lemma avoids_set_config_value (name : string) (section opt : string)
    (value : gp_value) :
  name = "Camera.capture" \/ name = "" ->
  avoids name (set_config_value driver env section opt value).
Proof.
  intros [-> | ->]; unfold set_config_value, set_config_value_try; avoids_steps.
Qed.

Lemma avoids_get_config_value (name : string) (section opt : string) :
  name = "Camera.capture" \/ name = "" ->
  avoids name (get_config_value driver section opt).
Proof.
  intros [-> | ->]; unfold get_config_value, get_config_value_try; avoids_steps.
Qed.

(** After the guarded call, calls of another name change nothing either. *)
Lemma only_after_then {A B} (earlier later : string) (m : M World A)
    (k : A -> M World B) :
  only_after earlier later m -> (forall a, avoids later (k a)) ->
  only_after earlier later (bind m k).
Proof.
  intros Hm Hk s. unfold bind. destruct (Hm s) as (new & Hc & Hord).
  destruct (m s) as [[a|ex|status] s1]; simpl in *; [|by exists new..].
  destruct (Hk a s1) as (new' & Hc' & Hnew').
  exists (new ++ new')%list. split; [by rewrite Hc', Hc, app_assoc|].
  intros before ok after Heq. rewrite map_app in Heq.
  assert ((later, ok) ∉ map (fun c => (call_name c, c.2)) new') as Hnone.
  { intros Hin. apply list_elem_of_fmap in Hin as (c & Hname & Hin).
    rewrite Forall_forall in Hnew'. apply (Hnew' c Hin). by injection Hname. }
  destruct (split_before_suffix _ _ _ _ _ Heq Hnone) as (k' & Heq' & _).
  by apply (Hord before ok k').
Qed.

(** Before the guarded call, calls of another name change nothing. *)
Lemma only_after_skip {A B} (earlier later : string) (m : M World A)
    (k : A -> M World B) :
  avoids later m -> (forall a, only_after earlier later (k a)) ->
  only_after earlier later (bind m k).
Proof.
  intros Hm Hk s. unfold bind. destruct (Hm s) as (new & Hc & Hnew).
  assert (forall ok, (later, ok) ∉ map (fun c => (call_name c, c.2)) new) as Hnone.
  { intros ok Hin. apply list_elem_of_fmap in Hin as (c & Hname & Hin).
    rewrite Forall_forall in Hnew. apply (Hnew c Hin). by injection Hname. }
  destruct (m s) as [[a|ex|status] s1]; simpl in *.
  - destruct (Hk a s1) as (new' & Hc' & Hord).
    exists (new ++ new')%list. split; [by rewrite Hc', Hc, app_assoc|].
    intros before ok after Heq. rewrite map_app in Heq.
    destruct (split_after_prefix _ _ _ _ _ Heq (Hnone ok)) as (k' & -> & Heq').
    apply elem_of_app. right. by apply (Hord k' ok after).
  - exists new. split; [done|]. intros before ok after Heq.
    destruct (Hnone ok). rewrite Heq. set_solver.
  - exists new. split; [done|]. intros before ok after Heq.
    destruct (Hnone ok). rewrite Heq. set_solver.
Qed.

(** Once the earlier call has succeeded, whatever follows is in order. *)
Lemma only_after_here {A B} (earlier later : string) (op : gp_op A)
    (k : A -> M World B) :
  op_name op = earlier -> earlier <> later ->
  (forall a s, exists new, calls (k a s).2 = (calls s ++ new)%list) ->
  only_after earlier later (bind (call driver op) k).
Proof.
  intros Hop Hne Hk s. unfold bind, call.
  destruct (r_result (driver A op (world s))) as [a|code text] eqn:Hcall; simpl.
  - destruct (Hk a (after_call driver op s)) as (new & Hc).
    exists ((called op, true) :: new). split.
    { rewrite Hc, after_call_eq, Hcall. simpl. by rewrite <- app_assoc. }
    intros before ok after Heq. simpl in Heq. unfold call_name in Heq at 1.
    simpl in Heq. rewrite Hop in Heq.
    destruct before as [|b before]; simpl in Heq.
    + injection Heq as Hbad _. by destruct Hne.
    + injection Heq as <- _. set_solver.
  - exists [(called op, false)]. split; [by rewrite after_call_eq, Hcall|].
    intros before ok after Heq. simpl in Heq. unfold call_name in Heq. simpl in Heq.
    rewrite Hop in Heq.
    destruct before as [|b [|b' before]]; simpl in Heq; [|done..].
    injection Heq as Hbad _. by destruct Hne.
Qed.

(** X15.  In the capture test the full capture is attempted only after the
    preview has succeeded: in the calls of the [try] block, every
    [camera.capture()] has a successful [camera.capture_preview()] before
    it. *)
Theorem capture_only_after_preview (s : state World) :
  exists new,
    calls (main_try driver env s).2 = (calls s ++ new)%list
    /\ forall before ok after,
         map (fun c => (call_name c, c.2)) new
         = (before ++ ("Camera.capture", ok) :: after)%list ->
         ("Camera.capture_preview", true) ∈ before.
Proof.
  assert (only_after "Camera.capture_preview" "Camera.capture" (main_try driver env))
    as Hord; [|exact (Hord s)].
  unfold main_try.
  apply only_after_then; [|intros camera_file; unfold main_try_save, pil; avoids_steps].
  unfold main_try_capture.
  repeat first
    [ apply only_after_here; [reflexivity | discriminate |]
    | apply only_after_skip;
      [ first [ apply avoids_set_config_value; by left
              | apply avoids_get_config_value; by left
              | avoids_steps ]
      | intros ? ] ].
  intros preview s'.
  match goal with
  | |- exists new, calls (?p s').2 = _ =>
      assert (avoids "" p) as Hrest;
      [|destruct (Hrest s') as (new & Hnew & _); by exists new]
  end.
  repeat first [ apply avoids_set_config_value; by right | progress avoids_steps ].
Qed.

End Order.

(** ** What the log function writes *)

(** X16.  The messages the driver hands to [gp_logging] end up in the log
    file one per line, in order and in full, each as
    "Gphoto2: <domain>: <text>" and none under a section rule; delivering
    them makes no driver call and touches no file. *)
Theorem gp_logging_lines {World} (messages : list (string * string))
    (s : state World) :
  Logger.file_text (log (deliver messages s))
  = Logger.file_text (log s)
    +:+ records_text
          (map (fun m => ("Gphoto2: " +:+ m.1 +:+ ": " +:+ m.2, false)) messages)
  /\ calls (deliver messages s) = calls s
  /\ files (deliver messages s) = files s.
Proof.
  rewrite deliver_eq. split; [|done]. simpl.
  rewrite write_lines_replay, replay_file, map_map. reflexivity.
Qed.
